(** * Gemini Presentation Architect: the live audio session, verified

    A shallow embedding of the realtime parts of the application:

    - [Codec]: [src/services/audioUtils.ts], the 16-bit PCM encoder
      ([createPCMBlob]) and decoder ([pcmToAudioBuffer]);
    - [Scheduler], [RoundedScheduler]: the playback cursor of
      [src/App.tsx] ([nextStartTimeRef], [audioSourcesRef]);
    - [Dispatcher]: the tool-call branch of [onmessage];
    - [Session]: [startLive], [stopLive] and the microphone button;
    - [Slides]: [handleUpdateCurrentSlide];
    - [Transport]: [encodeBase64], [decodeBase64] and the last step of
      [createPCMBlob];
    - [Handler]: [onmessage] as a whole; [Capture]: [onopen] and
      [onaudioprocess]; [PendingStart]: [startLive] around its first
      [await];
    - [Images], [Navigation], [Renderer], [Visualizer]: the image
      callback of [handleGenerate], the slide navigation, the two-column
      layout and the level meter;
    - [Grounding]: the sources of [generatePresentationStructure]
      ([src/services/geminiService.ts]).

    JavaScript numbers are embedded as exact rationals extended with the
    two infinities and NaN.  Every product the encoder forms is the
    product of a binary32 sample with 2^15 or 2^15-1 and is exact in
    binary64, and every quotient the decoder forms is k/2^15 with
    |k| <= 2^15, so the codec computes the same values over Q as over
    IEEE numbers.  The scheduler comes twice: [Scheduler] adds times as
    exact rationals, which is enough for what depends on the branch taken
    and on the order of times; [RoundedScheduler] rounds each of the two
    additions to the nearest double ([Binary64]), as the code does, and
    carries what is said about sums of times. *)

From Stdlib Require Import ZArith QArith Qabs Qround Qminmax Qpower Lia Lqa.
From stdpp Require Import gmap strings list fin_maps.

(** ** JavaScript numbers *)

Module JS.

Inductive number : Type :=
| Fin (q : Q)
| PosInf
| NegInf
| NaN.

Definition Qltb (x y : Q) : bool := negb (Qle_bool y x).

(** [a < b]; false as soon as one side is NaN. *)
Definition lt (a b : number) : bool :=
  match a, b with
  | NaN, _ | _, NaN => false
  | Fin x, Fin y => Qltb x y
  | NegInf, NegInf => false
  | NegInf, _ => true
  | _, NegInf => false
  | PosInf, _ => false
  | Fin _, PosInf => true
  end.

(** [Math.min] and [Math.max] of two arguments. *)
Definition Math_min (a b : number) : number :=
  match a, b with
  | NaN, _ | _, NaN => NaN
  | _, _ => if lt b a then b else a
  end.

Definition Math_max (a b : number) : number :=
  match a, b with
  | NaN, _ | _, NaN => NaN
  | _, _ => if lt a b then b else a
  end.

Definition sign (q : Q) : comparison := (Qnum q ?= 0)%Z.

Definition inf_of (c : comparison) : number :=
  match c with
  | Gt => PosInf
  | Lt => NegInf
  | Eq => NaN
  end.

(** [a * b]; an infinity times zero is NaN. *)
Definition mul (a b : number) : number :=
  match a, b with
  | NaN, _ | _, NaN => NaN
  | Fin x, Fin y => Fin (x * y)
  | PosInf, Fin y | Fin y, PosInf => inf_of (sign y)
  | NegInf, Fin y | Fin y, NegInf => inf_of (CompOpp (sign y))
  | PosInf, PosInf | NegInf, NegInf => PosInf
  | PosInf, NegInf | NegInf, PosInf => NegInf
  end.

(** The integer part of a rational, rounding toward zero. *)
Definition truncate (q : Q) : Z :=
  if Qltb q 0 then Qceiling q else Qfloor q.

(** Reduction of an integer to the signed 16-bit range. *)
Definition wrap16 (n : Z) : Z := ((n + 32768) mod 65536 - 32768)%Z.

(** The conversion applied by a store into an [Int16Array]: NaN and the
    infinities become 0, a finite number is truncated and wrapped. *)
Definition ToInt16 (x : number) : Z :=
  match x with
  | Fin q => wrap16 (truncate q)
  | PosInf | NegInf | NaN => 0%Z
  end.

End JS.

(** ** The PCM codec ([src/services/audioUtils.ts]) *)

Module Codec.
Import JS.

(** One iteration of the loop of [createPCMBlob]: the value stored at
    [int16[i]] for the sample [data[i]]. *)
Definition pcm_sample (d : number) : Z :=
  let s := Math_max (Fin (-1)) (Math_min (Fin 1) d) in
  ToInt16 (if lt s (Fin 0) then mul s (Fin 32768) else mul s (Fin 32767)).

(** The [Int16Array] filled by the loop of [createPCMBlob]. *)
Definition createPCMBlob_int16 (data : list number) : list Z :=
  map pcm_sample data.

(** The two bytes of a 16-bit element as a byte view of the same buffer
    shows them.  Typed arrays use the byte order of the platform; the
    model fixes the little-endian order of the platforms that run the
    application. *)
Definition int16_bytes (v : Z) : list Z :=
  [Z.land v 255; Z.land (Z.shiftr v 8) 255].

(** [new Uint8Array(int16.buffer)]: the byte view that [createPCMBlob]
    passes to [encodeBase64]. *)
Definition createPCMBlob_bytes (data : list number) : list Z :=
  flat_map int16_bytes (createPCMBlob_int16 data).

Record AudioBuffer : Type := mkAudioBuffer {
  numberOfChannels : nat;
  frames : nat;
  sampleRate : Q;
  channels : list (list Q)
}.

(** [buf.duration], in seconds. *)
Definition duration (b : AudioBuffer) : Q :=
  inject_Z (Z.of_nat (frames b)) / sampleRate b.

(** [ctx.createBuffer(numberOfChannels, length, sampleRate)].  The length
    is converted to an unsigned integer by truncation.  The call throws
    NotSupportedError when the channel count or the converted length is
    zero; [None] stands for the exception.  A fresh buffer is silent. *)
Definition createBuffer (numChannels : nat) (len : Q) (rate : Q)
  : option AudioBuffer :=
  let n := Z.to_nat (truncate len) in
  if bool_decide (numChannels = 0 ∨ n = 0) then None
  else Some (mkAudioBuffer numChannels n rate
               (replicate numChannels (replicate n 0%Q))).

(** [dataView.getInt16(offset, true)]: little-endian, two's complement;
    [None] is the RangeError of a read past the end. *)
Definition getInt16 (data : list Z) (offset : nat) : option Z :=
  lo ← data !! offset;
  hi ← data !! (offset + 1);
  let u := Z.lor lo (Z.shiftl hi 8) in
  Some (if (32768 <=? u)%Z then (u - 65536)%Z else u).

(** The value that line 42 assigns to [channelData[i]]. *)
Definition stored (data : list Z) (numChannels channel i : nat) : option Q :=
  v ← getInt16 data ((i * numChannels + channel) * 2);
  Some (inject_Z v / 32768)%Q.

(** [data.byteLength / (2 * numChannels)], a number that need not be an
    integer.  With no channel the JavaScript quotient is infinite;
    [createBuffer] rejects a zero channel count whatever the length, so
    the value of the division by zero is never observed. *)
Definition frameCount_of (data : list Z) (numChannels : nat) : Q :=
  (inject_Z (Z.of_nat (length data)) /
   inject_Z (Z.of_nat (2 * numChannels)))%Q.

(** The naturals [i] with [i < frameCount], for a possibly fractional
    [frameCount]: the values taken by the inner loop counter. *)
Definition loop_indices (frameCount : Q) : list nat :=
  seq 0 (Z.to_nat (Qceiling frameCount)).

(** Body of the inner loop.  A store past the end of the channel's
    [Float32Array] is ignored, as is stdpp's list insert. *)
Definition store_frame (data : list Z) (numChannels channel : nat)
    (acc : option (list Q)) (i : nat) : option (list Q) :=
  channelData ← acc;
  let offset := (i * numChannels + channel) * 2 in
  if bool_decide (offset + 1 < length data) then
    v ← getInt16 data offset;
    Some (<[i := (inject_Z v / 32768)%Q]> channelData)
  else Some channelData.

(** Body of the outer loop: fill one channel of the buffer in place. *)
Definition fill_channel (data : list Z) (numChannels : nat) (frameCount : Q)
    (acc : option (list (list Q))) (channel : nat) : option (list (list Q)) :=
  chans ← acc;
  channelData ← chans !! channel;
  filled ← foldl (store_frame data numChannels channel) (Some channelData)
             (loop_indices frameCount);
  Some (<[channel := filled]> chans).

Definition pcmToAudioBuffer (data : list Z) (rate : Q) (numChannels : nat)
  : option AudioBuffer :=
  if bool_decide (length data = 0) then createBuffer numChannels 1 rate
  else
    let frameCount := frameCount_of data numChannels in
    buffer ← createBuffer numChannels frameCount rate;
    chans ← foldl (fill_channel data numChannels frameCount)
              (Some (channels buffer)) (seq 0 numChannels);
    Some (mkAudioBuffer (numberOfChannels buffer) (frames buffer)
            (sampleRate buffer) chans).

End Codec.

(** ** The transport encoding ([encodeBase64], [decodeBase64]) *)

Module Transport.
Import JS Codec.

(** [btoa] and [atob] are the functions of the platform: base64 with
    padding on the way out, the forgiving decoding of the HTML standard
    on the way in.  A string is the list of its code units; [None]
    stands for the InvalidCharacterError either function can throw. *)

(** A value of a [Uint8Array]. *)
Definition is_byte (b : Z) : Prop := (0 <= b < 256)%Z.

(** The character of a six-bit value in the base64 alphabet
    [A-Z a-z 0-9 + /], as a code unit. *)
Definition char_of (s : Z) : Z :=
  if (s <? 26)%Z then (65 + s)%Z
  else if (s <? 52)%Z then (97 + (s - 26))%Z
  else if (s <? 62)%Z then (48 + (s - 52))%Z
  else if (s =? 62)%Z then 43%Z
  else 47%Z.

(** The six-bit value of a code unit of the alphabet. *)
Definition index_of (c : Z) : option Z :=
  if ((65 <=? c) && (c <=? 90))%Z then Some (c - 65)%Z
  else if ((97 <=? c) && (c <=? 122))%Z then Some (c - 97 + 26)%Z
  else if ((48 <=? c) && (c <=? 57))%Z then Some (c - 48 + 52)%Z
  else if (c =? 43)%Z then Some 62%Z
  else if (c =? 47)%Z then Some 63%Z
  else None.

Definition equals_sign : Z := 61.

(** Base64 encoding of a byte sequence, with padding (RFC 4648). *)
Fixpoint base64_encode (bytes : list Z) : list Z :=
  match bytes with
  | [] => []
  | [a] =>
      let n := (a * 16)%Z in
      [char_of (n / 64); char_of (n mod 64); equals_sign; equals_sign]
  | [a; b] =>
      let n := ((a * 256 + b) * 4)%Z in
      [char_of (n / 4096); char_of (n / 64 mod 64); char_of (n mod 64);
       equals_sign]
  | a :: b :: c :: rest =>
      let n := ((a * 256 + b) * 256 + c)%Z in
      char_of (n / 262144) :: char_of (n / 4096 mod 64) ::
      char_of (n / 64 mod 64) :: char_of (n mod 64) :: base64_encode rest
  end.

Definition is_whitespace (c : Z) : bool :=
  ((c =? 9) || (c =? 10) || (c =? 12) || (c =? 13) || (c =? 32))%Z.

(** Remove a final [=], if there is one. *)
Definition drop_equals (data : list Z) : list Z :=
  if bool_decide (last data = Some equals_sign)
  then take (length data - 1) data else data.

(** "If data ends with one or two [=], remove them." *)
Definition strip_padding (data : list Z) : list Z :=
  drop_equals (drop_equals data).

(** Six-bit values back to bytes; the bits left over in a short final
    group are discarded. *)
Fixpoint base64_decode (sextets : list Z) : list Z :=
  match sextets with
  | a :: b :: c :: d :: rest =>
      let n := (((a * 64 + b) * 64 + c) * 64 + d)%Z in
      (n / 65536)%Z :: (n / 256 mod 256)%Z :: (n mod 256)%Z ::
      base64_decode rest
  | [a; b; c] =>
      let n := (((a * 64 + b) * 64 + c) / 4)%Z in
      [(n / 256)%Z; (n mod 256)%Z]
  | [a; b] => [((a * 64 + b) / 16)%Z]
  | _ => []
  end.

(** [btoa] refuses a code unit above 255. *)
Definition btoa (data : list Z) : option (list Z) :=
  if forallb (λ c, (c <=? 255)%Z) data then Some (base64_encode data)
  else None.

(** [atob]: drop ASCII white space; drop the padding of a text whose
    length is a multiple of four; fail on a length of 4k+1 and on any
    character outside the alphabet; decode. *)
Definition atob (data : list Z) : option (list Z) :=
  let data := filter (λ c, is_whitespace c = false) data in
  let data :=
    if bool_decide (length data mod 4 = 0) then strip_padding data else data in
  if bool_decide (length data mod 4 = 1) then None
  else sextets ← mapM index_of data; Some (base64_decode sextets).

(** The code units of a string of the source text. *)
Definition of_string (s : string) : list Z :=
  (λ a, Z.of_N (Ascii.N_of_ascii a)) <$> String.list_ascii_of_string s.

(** [String.fromCharCode(b)] and the store of [charCodeAt(i)] into a
    [Uint8Array]. *)
Definition fromCharCode (b : Z) : Z := (b mod 65536)%Z.
Definition ToUint8 (c : Z) : Z := (c mod 256)%Z.

(** [decodeBase64], lines 2-10. *)
Definition decodeBase64 (base64 : list Z) : option (list Z) :=
  binaryString ← atob base64;
  Some (map ToUint8 binaryString).

(** [encodeBase64], lines 12-19. *)
Definition encodeBase64 (bytes : list Z) : option (list Z) :=
  btoa (map fromCharCode bytes).

(** [createPCMBlob], lines 52-62, with its last step. *)
Definition createPCMBlob (data : list number) : option (list Z) :=
  encodeBase64 (createPCMBlob_bytes data).

(** The six-bit values that [base64_encode] writes, and the number of
    padding characters after them. *)
Fixpoint sextets_of (bytes : list Z) : list Z :=
  match bytes with
  | [] => []
  | [a] => let n := (a * 16)%Z in [(n / 64)%Z; (n mod 64)%Z]
  | [a; b] =>
      let n := ((a * 256 + b) * 4)%Z in
      [(n / 4096)%Z; (n / 64 mod 64)%Z; (n mod 64)%Z]
  | a :: b :: c :: rest =>
      let n := ((a * 256 + b) * 256 + c)%Z in
      (n / 262144)%Z :: (n / 4096 mod 64)%Z :: (n / 64 mod 64)%Z ::
      (n mod 64)%Z :: sextets_of rest
  end.

Definition padding_of (bytes : list Z) : nat :=
  match length bytes mod 3 with
  | 1 => 2
  | 2 => 1
  | _ => 0
  end.

End Transport.

(** ** The playback scheduler ([src/App.tsx], the audio branch and the
       interruption branch of [onmessage]) *)

Module Scheduler.
Import JS.

(** One call of [source.start]: the source node, the time it was handed
    to the output device, and the duration of its buffer. *)
Record scheduled : Type := mkScheduled {
  node : nat;
  start_time : Q;
  length_s : Q
}.

(** The mutable cells shared by the callbacks: [nextStartTimeRef],
    [audioSourcesRef], and the calls made on the output device so far.
    [next_node] numbers the nodes made by [createBufferSource]. *)
Record playback : Type := mkPlayback {
  nextStartTime : Q;
  audioSources : gset nat;
  next_node : nat;
  started : list scheduled;
  stopped : list nat
}.

(** [useRef(0)], [useRef(new Set())]. *)
Definition initial : playback := mkPlayback 0 ∅ 0 [] [].

Definition min_lead : Q := 5 # 100.

(** Lines 239-244: read [now], move the cursor if it fell behind, start
    the source at the cursor, advance the cursor by the duration of the
    buffer and record the source as in flight.  The two sums are exact
    here; [RoundedScheduler.enqueue] rounds them. *)
Definition enqueue (now dur : Q) (p : playback) : playback :=
  let next :=
    if Qltb (nextStartTime p) now then (now + min_lead)%Q
    else nextStartTime p in
  let source := next_node p in
  mkPlayback (next + dur)%Q
             ({[source]} ∪ audioSources p)
             (S source)
             (started p ++ [mkScheduled source next dur])
             (stopped p).

(** [source.onended]. *)
Definition onended (source : nat) (p : playback) : playback :=
  mkPlayback (nextStartTime p) (audioSources p ∖ {[source]})
             (next_node p) (started p) (stopped p).

(** Lines 249-253: stop every source in flight, clear the set, reset the
    cursor.  The code stops the sources in the order of their insertion
    into the set; [stopped] records which sources were stopped, and the
    order within one interruption is that of [elements]. *)
Definition interrupt (p : playback) : playback :=
  mkPlayback 0 ∅ (next_node p) (started p)
             (stopped p ++ elements (audioSources p)).

Inductive event : Type :=
| Fragment (now dur : Q)
| Interrupted
| Ended (source : nat).

Definition step (p : playback) (e : event) : playback :=
  match e with
  | Fragment now dur => enqueue now dur p
  | Interrupted => interrupt p
  | Ended source => onended source p
  end.

Definition run (p : playback) (es : list event) : playback :=
  foldl step p es.

(** The calls of [source.start] made by [es] from [p], in order. *)
Definition scheduled_by (p : playback) (es : list event) : list scheduled :=
  drop (length (started p)) (started (run p es)).

(** Consecutive starts leave room for the earlier fragment, the sum
    taken exactly. *)
Definition non_overlapping (l : list scheduled) : Prop :=
  ∀ i a b, l !! i = Some a → l !! S i = Some b →
           (start_time a + length_s a <= start_time b)%Q.

End Scheduler.

(** ** JSON values and objects *)

Module Json.

#[warnings="-register-all"]
Inductive value : Type :=
| Undefined
| Null
| Bool (b : bool)
| Num (q : Q)
| Str (s : string)
| Arr (l : list value).

Abbreviation object := (gmap string value).

(** [{...o}] for a possibly undefined [o]. *)
Definition spread (o : option object) : object := default ∅ o.

(** [o.k] on an object: a missing key reads [undefined]. *)
Definition get (o : object) (k : string) : value := default Undefined (o !! k).

End Json.

(** ** The tool dispatcher ([src/App.tsx], lines 218-229) *)

Module Dispatcher.
Import Json.

(** A function call of the SDK; every field is optional. *)
Record FunctionCall : Type := mkFunctionCall {
  id : option string;
  name : option string;
  args : option object
}.

Inductive effect : Type :=
| Generate (topic : value)
| Update (updates : option object)
| SendToolResponse (call_id call_name : option string) (result : string).

(** How the branch ended: it ran to its end, or a TypeError left it. *)
Inductive outcome : Type :=
| Completed
| Threw.

(** The handler selected by the name.  Reading [.topic] of an absent
    [args] throws; [None] stands for the exception. *)
Definition call_handler (fc : FunctionCall) : option (list effect) :=
  if bool_decide (name fc = Some "create_presentation") then
    a ← args fc;
    Some [Generate (get a "topic")]
  else if bool_decide (name fc = Some "update_slide") then
    Some [Update (args fc)]
  else Some [].

(** The loop over [message.toolCall.functionCalls].  The acknowledgement
    is sent from a continuation of the session promise (line 225), after
    the loop has gone on: the list gives the effects of each call and the
    order of the acknowledgements among themselves, not the moment at
    which an acknowledgement leaves relative to the handlers. *)
Fixpoint dispatch (fcs : list FunctionCall) : list effect * outcome :=
  match fcs with
  | [] => ([], Completed)
  | fc :: rest =>
      match call_handler fc with
      | None => ([], Threw)
      | Some called =>
          let '(later, o) := dispatch rest in
          (called ++ SendToolResponse (id fc) (name fc) "OK" :: later, o)
      end
  end.

(** [if (message.toolCall) for (const fc of message.toolCall.functionCalls)]:
    iterating an absent list throws. *)
Definition on_toolCall (toolCall : option (option (list FunctionCall)))
  : list effect * outcome :=
  match toolCall with
  | None => ([], Completed)
  | Some None => ([], Threw)
  | Some (Some fcs) => dispatch fcs
  end.

(** The calls whose handler can be invoked: a [create_presentation] call
    carries its arguments. *)
Definition has_args (fc : FunctionCall) : Prop :=
  name fc = Some "create_presentation" → is_Some (args fc).

(** The acknowledgements among the effects, in order. *)
Definition acks (es : list effect) : list (option string * option string) :=
  omap (λ e, match e with
             | SendToolResponse i n _ => Some (i, n)
             | _ => None
             end) es.

End Dispatcher.

(** ** The session ([startLive], [stopLive], the microphone button) *)

Module Session.

Inductive status : Type := idle | connecting | active.

(** The React state and the refs that hold handles.  A handle is the
    number of the acquisition that made it. *)
Record session : Type := mkSession {
  connectionStatus : status;
  streamRef : option nat;
  inputAudioCtxRef : option nat;
  outputAudioCtxRef : option nat;
  sessionPromiseRef : option nat;
  nextStartTime : Q;
  acquired : nat
}.

Inductive effect : Type :=
| GetUserMedia (granted : bool)
| NewAudioContext (rate : Z)
| Connect
| Alert
| CloseChannel
| StopTracks
| CloseContext.

(** The effects that take a device or open the channel. *)
Definition acquires (e : effect) : bool :=
  match e with
  | GetUserMedia granted => granted
  | NewAudioContext _ | Connect => true
  | _ => false
  end.

(** [startLive], run with no other callback between its [await] and
    what follows it; [PendingStart] has the two halves.  [granted] is
    the answer of [getUserMedia]: a rejection is caught, the status goes
    back to idle and an alert is shown.  The function reads no state
    before it acts. *)
Definition startLive (granted : bool) (s : session) : session * list effect :=
  if granted then
    let n := acquired s in
    (mkSession connecting (Some n) (Some (n + 1)) (Some (n + 2))
               (Some (n + 3)) (nextStartTime s) (n + 4),
     [GetUserMedia true; NewAudioContext 16000; NewAudioContext 24000; Connect])
  else
    (mkSession idle (streamRef s) (inputAudioCtxRef s) (outputAudioCtxRef s)
               (sessionPromiseRef s) (nextStartTime s) (acquired s),
     [GetUserMedia false; Alert]).

(** [onopen]. *)
Definition onopen (s : session) : session :=
  mkSession active (streamRef s) (inputAudioCtxRef s) (outputAudioCtxRef s)
            (sessionPromiseRef s) (nextStartTime s) (acquired s).

Definition when {A} (o : option A) (e : effect) : list effect :=
  match o with
  | Some _ => [e]
  | None => []
  end.

(** [stopLive].  The refs of the stream and of the two contexts are read
    but never cleared; only [sessionPromiseRef] is set to null.  The
    channel is closed from a continuation of the session promise, so
    [CloseChannel] stands for a close that is requested here and happens
    after the other effects. *)
Definition stopLive (s : session) : session * list effect :=
  (mkSession idle (streamRef s) (inputAudioCtxRef s) (outputAudioCtxRef s)
             None 0 (acquired s),
   when (sessionPromiseRef s) CloseChannel ++
   when (streamRef s) StopTracks ++
   when (inputAudioCtxRef s) CloseContext ++
   when (outputAudioCtxRef s) CloseContext).

(** [onClick={connectionStatus === 'idle' ? startLive : stopLive}]. *)
Definition click (granted : bool) (s : session) : session * list effect :=
  match connectionStatus s with
  | idle => startLive granted s
  | _ => stopLive s
  end.

End Session.

(** ** Slide updates ([handleUpdateCurrentSlide]) *)

Module Slides.
Import Json.

(** A JavaScript array of objects; [None] is a hole. *)
Abbreviation array := (list (option object)).

Record Presentation : Type := mkPresentation {
  p_id : string;
  p_title : string;
  slides : array;
  sources : option (list (string * string))
}.

(** [a[i]]: a hole and an index past the end both read [undefined]. *)
Definition array_get (a : array) (i : nat) : option object :=
  mjoin (a !! i).

(** [a[i] = x]: a store past the end extends the array with holes. *)
Definition array_set (a : array) (i : nat) (x : object) : array :=
  if bool_decide (i < length a) then <[i := Some x]> a
  else a ++ replicate (i - length a) None ++ [Some x].

(** The state touched by the updater: the presentation, the index of the
    slide on screen and the copy kept in local storage. *)
Record app : Type := mkApp {
  presentation : Presentation;
  activeSlideIndex : nat;
  saved : option Presentation
}.

Definition handleUpdateCurrentSlide (updates : option object) (a : app) : app :=
  let prev := presentation a in
  let news := slides prev in
  let news :=
    array_set news (activeSlideIndex a)
      (spread updates ∪ spread (array_get news (activeSlideIndex a))) in
  let updated := mkPresentation (p_id prev) (p_title prev) news (sources prev) in
  mkApp updated (activeSlideIndex a) (Some updated).

End Slides.

(** ** Doubles

    The times of the scheduler are IEEE binary64 numbers, and each of its
    two additions rounds its exact sum to the nearest double.  A double
    is embedded as the rational it denotes; overflow is left out, the
    times of a session being far below the largest double. *)

Module Binary64.

Definition pow2 (e : Z) : Q := (2 ^ e)%Q.

(** The exponent of a positive number: the [e] with 2^e <= q < 2^(e+1). *)
Definition exponent (q : Q) : Z :=
  let e0 := (Z.log2 (Qnum q) - Z.log2 (QDen q))%Z in
  if Qle_bool (pow2 e0) q then e0 else (e0 - 1)%Z.

(** The nearest integer, a tie going to the even one. *)
Definition round_half_even (q : Q) : Z :=
  let f := Qfloor q in
  match (q - inject_Z f ?= 1 # 2)%Q with
  | Lt => f
  | Gt => (f + 1)%Z
  | Eq => if Z.even f then f else (f + 1)%Z
  end.

Definition emin : Z := (-1022)%Z.

(** The distance between neighbouring doubles around a positive [q]:
    53 significant bits, and the fixed spacing of the subnormals below
    2^emin. *)
Definition ulp (q : Q) : Q := pow2 (Z.max (exponent q) emin - 52).

Definition round_pos (q : Q) : Q :=
  (inject_Z (round_half_even (q / ulp q)) * ulp q)%Q.

(** The double nearest to [q], ties to even. *)
Definition round64 (q : Q) : Q :=
  match (q ?= 0)%Q with
  | Eq => 0%Q
  | Gt => round_pos q
  | Lt => (- round_pos (- q))%Q
  end.

End Binary64.

(** ** The playback scheduler, with the additions of the code

    The same state and the same events as [Scheduler]; [now + 0.05] and
    [nextStartTime += duration] are additions of doubles, and [0.05] is
    the double written that way. *)

Module RoundedScheduler.
Import JS Binary64 Scheduler.

(** [x + y] on doubles. *)
Definition add (x y : Q) : Q := round64 (x + y).

(** The literal [0.05]. *)
Definition min_lead : Q := round64 (5 # 100).

(** Lines 239-244. *)
Definition enqueue (now dur : Q) (p : playback) : playback :=
  let next :=
    if Qltb (nextStartTime p) now then add now min_lead
    else nextStartTime p in
  let source := next_node p in
  mkPlayback (add next dur)
             ({[source]} ∪ audioSources p)
             (S source)
             (started p ++ [mkScheduled source next dur])
             (stopped p).

Definition step (p : playback) (e : event) : playback :=
  match e with
  | Fragment now dur => enqueue now dur p
  | Interrupted => interrupt p
  | Ended source => onended source p
  end.

Definition run (p : playback) (es : list event) : playback :=
  foldl step p es.

(** The calls of [source.start] made by [es] from [p], in order. *)
Definition scheduled_by (p : playback) (es : list event) : list scheduled :=
  drop (length (started p)) (started (run p es)).

(** An event of a run without interruption: [currentTime] is a
    non-negative double and the duration of a buffer is not negative. *)
Definition timed (e : event) : Prop :=
  match e with
  | Fragment now dur =>
      (0 <= now)%Q ∧ (round64 now == now)%Q ∧ (0 <= dur)%Q
  | Interrupted => False
  | Ended _ => True
  end.

(** Every start is at or after the cursor that the start before it
    left: the rounded sum of that start and its duration. *)
Definition follows_cursor (l : list scheduled) : Prop :=
  ∀ i a b, l !! i = Some a → l !! S i = Some b →
           (add (start_time a) (length_s a) <= start_time b)%Q.

End RoundedScheduler.

(** ** Predicates on runs of the scheduler *)

Module SchedulerRuns.
Import JS Scheduler.

(** The events of a run in which the cursor can only move forward. *)
Definition forward (e : event) : Prop :=
  match e with
  | Fragment _ dur => (0 <= dur)%Q
  | Interrupted => False
  | Ended _ => True
  end.

(** The bookkeeping of the sources: kept by every event. *)
Definition tidy (p : playback) : Prop :=
  NoDup (stopped p) ∧
  (∀ n, n ∈ audioSources p → n < next_node p ∧ n ∉ stopped p) ∧
  (∀ n, n ∈ stopped p → n < next_node p).

End SchedulerRuns.

(** ** The message handler ([onmessage], [src/App.tsx] lines 211-254) *)

Module Handler.
Import JS Codec Transport Scheduler Json Dispatcher.

(** A part of the model turn: [part.inlineData?.data], a base64 string
    when present, and the value that [outputCtx.currentTime] has when the
    part is scheduled. *)
Record Part : Type := mkPart {
  data : option (list Z);
  currentTime : Q
}.

(** A transcription object; its [text] is optional. *)
Record ServerContent : Type := mkServerContent {
  inputTranscription : option (option string);
  outputTranscription : option (option string);
  parts : option (list Part);
  interrupted : bool
}.

Record LiveServerMessage : Type := mkMessage {
  serverContent : option ServerContent;
  toolCall : option (option (list FunctionCall))
}.

(** What the handler can change: the transcript line on screen, the
    playback state, and the calls made on the handlers and the channel. *)
Record state : Type := mkState {
  liveTranscription : string;
  player : playback;
  effects : list effect
}.

(** String concatenation with a possibly undefined text. *)
Definition concat_text (prefix : string) (text : option string) : string :=
  prefix +:+ default "undefined" text.

(** Lines 212-216. *)
Definition transcribe (m : LiveServerMessage) (line : string) : string :=
  match serverContent m with
  | Some sc =>
      match inputTranscription sc, outputTranscription sc with
      | Some t, _ => concat_text "Du: " t
      | None, Some t => concat_text "KI: " t
      | None, None => line
      end
  | None => line
  end.

(** Lines 234-245, for one part.  An empty or absent string is skipped;
    [None] is an exception thrown by the decoding. *)
Definition play_part (p : playback) (part : Part) : option playback :=
  match data part with
  | Some (c :: base64) =>
      bytes ← decodeBase64 (c :: base64);
      buf ← pcmToAudioBuffer bytes 24000 1;
      Some (enqueue (currentTime part) (duration buf) p)
  | _ => Some p
  end.

(** The loop of line 233; an exception leaves it. *)
Fixpoint play_parts (ps : list Part) (p : playback) : playback * outcome :=
  match ps with
  | [] => (p, Completed)
  | part :: rest =>
      match play_part p part with
      | Some p' => play_parts rest p'
      | None => (p, Threw)
      end
  end.

(** The handler: transcript, tool calls, audio parts, interruption, in
    this order; an exception ends it where it is thrown.  This is one
    invocation on its own: the promises awaited in the loop are already
    resolved, and what another invocation could do at those points is not
    part of the model. *)
Definition onmessage (m : LiveServerMessage) (st : state) : state * outcome :=
  let line := transcribe m (liveTranscription st) in
  let '(called, o) := on_toolCall (toolCall m) in
  let es := effects st ++ called in
  match o with
  | Threw => (mkState line (player st) es, Threw)
  | Completed =>
      let '(p, o) :=
        match serverContent m ≫= parts with
        | Some ps => play_parts ps (player st)
        | None => (player st, Completed)
        end in
      match o with
      | Threw => (mkState line p es, Threw)
      | Completed =>
          let p :=
            if from_option interrupted false (serverContent m)
            then interrupt p else p in
          (mkState line p es, Completed)
      end
  end.

(** A part with data that the decoding rejects: the text is not base64,
    or it holds a single byte. *)
Definition undecodable (part : Part) : Prop :=
  ∃ c base64,
    data part = Some (c :: base64) ∧
    (decodeBase64 (c :: base64) ≫= λ bytes, pcmToAudioBuffer bytes 24000 1)
      = None.

End Handler.

(** ** The capture path ([onopen] and [onaudioprocess], lines 198-210) *)

Module Capture.
Import JS Transport.

(** Whether [scriptProcessor.onaudioprocess] is set, and the media sent
    with [sendRealtimeInput]: base64 data and MIME type. *)
Record capture : Type := mkCapture {
  onaudioprocess : bool;
  sent : list (list Z * string)
}.

Inductive event : Type :=
| Open
| AudioProcess (pcmData : list number).

Definition step (c : capture) (e : event) : capture :=
  match e with
  | Open => mkCapture true (sent c)
  | AudioProcess pcmData =>
      if onaudioprocess c then
        match createPCMBlob pcmData with
        | Some base64Data =>
            mkCapture true (sent c ++ [(base64Data, "audio/pcm;rate=16000")])
        | None => c
        end
      else c
  end.

Definition run (c : capture) (es : list event) : capture := foldl step c es.

(** The frames of the events, in order. *)
Definition frames_of (es : list event) : list (list number) :=
  omap (λ e, match e with AudioProcess f => Some f | Open => None end) es.

Definition is_open (e : event) : bool :=
  match e with Open => true | _ => false end.

End Capture.

(** ** A start in two steps

    [startLive] is asynchronous: it sets the status and asks for the
    microphone, and the rest runs when the request is answered.  Other
    callbacks, a click among them, can run in between. *)

Module PendingStart.
Import Session.

(** Up to [await getUserMedia]: line 118. *)
Definition request (s : session) : session :=
  mkSession connecting (streamRef s) (inputAudioCtxRef s)
            (outputAudioCtxRef s) (sessionPromiseRef s) (nextStartTime s)
            (acquired s).

(** From the answer of the microphone request on: lines 129-271.  The
    status is not set again before [onopen]. *)
Definition resume (granted : bool) (s : session) : session * list effect :=
  if granted then
    let n := acquired s in
    (mkSession (connectionStatus s) (Some n) (Some (n + 1)) (Some (n + 2))
               (Some (n + 3)) (nextStartTime s) (n + 4),
     [GetUserMedia true; NewAudioContext 16000; NewAudioContext 24000; Connect])
  else
    (mkSession idle (streamRef s) (inputAudioCtxRef s) (outputAudioCtxRef s)
               (sessionPromiseRef s) (nextStartTime s) (acquired s),
     [GetUserMedia false; Alert]).

(** The effect that opens a channel, and the one that closes it. *)
Definition opens (e : effect) : bool :=
  match e with
  | Connect => true
  | _ => false
  end.

Definition closes (e : effect) : bool :=
  match e with
  | CloseChannel => true
  | _ => false
  end.

End PendingStart.

(** ** Images of generated slides ([handleGenerate], lines 96-104) *)

Module Images.
Import Json Slides.

(** The updater run when the image of slide [i] arrives.  The slide is
    changed only if the array has an object at [i]. *)
Definition onImage (i : nat) (url : string) (a : app) : app :=
  let p := presentation a in
  let n := slides p in
  let n :=
    match array_get n i with
    | Some slide => <[i := Some (<["imageUrl" := Str url]> slide)]> n
    | None => n
    end in
  let next := mkPresentation (p_id p) (p_title p) n (sources p) in
  mkApp next (activeSlideIndex a) (Some next).

End Images.

(** ** Slide navigation (lines 298, 371, 373) *)

Module Navigation.

Inductive action : Type :=
| Previous
| Next
| Thumbnail (idx : nat).

(** The new index of the slide on screen, for a presentation of [len]
    slides.  There is a thumbnail for each slide and for nothing else. *)
Definition navigate (len : nat) (v : Z) (a : action) : Z :=
  match a with
  | Previous => Z.max 0 (v - 1)
  | Next => Z.min (Z.of_nat len - 1) (v + 1)
  | Thumbnail idx => if bool_decide (idx < len) then Z.of_nat idx else v
  end.

End Navigation.

(** ** The two-column layout ([SlideRenderer], TWO_COLUMN) *)

Module Renderer.

(** [a.slice(b, e)] for integers [0 <= b <= e]. *)
Definition slice {A} (a : list A) (b e : nat) : list A :=
  take (e - b) (drop b a).

(** The lines shown in the two columns. *)
Definition columns (content : list string) : list (list string) :=
  (λ col, slice content (col * 4) ((col + 1) * 4)) <$> [0; 1].

End Renderer.

(** ** Grounding sources ([generatePresentationStructure], lines 90-102) *)

Module Grounding.

Record Web : Type := mkWeb {
  uri : option string;
  title : option string
}.

Record Chunk : Type := mkChunk { web : option Web }.

Record Source : Type := mkSource {
  s_title : string;
  s_uri : string
}.

(** A string in a condition: the empty string counts as false. *)
Definition truthy (o : option string) : option string :=
  match o with
  | Some s => if bool_decide (s = "") then None else Some s
  | None => None
  end.

(** The [forEach] of lines 94-98. *)
Definition collect (chunks : list Chunk) : list Source :=
  omap (λ chunk,
          w ← web chunk;
          u ← truthy (uri w);
          Some (mkSource (default u (truthy (title w))) u)) chunks.

(** A JavaScript [Map] keeps its entries in the order the keys were
    first set; setting a key again replaces the value where it is. *)
Fixpoint Map_set {V} (k : string) (v : V) (m : list (string * V))
  : list (string * V) :=
  match m with
  | [] => [(k, v)]
  | (k', v') :: rest =>
      if bool_decide (k' = k) then (k, v) :: rest
      else (k', v') :: Map_set k v rest
  end.

(** [new Map(entries)]. *)
Definition Map_of {V} (entries : list (string * V)) : list (string * V) :=
  foldl (λ m e, Map_set e.1 e.2 m) [] entries.

(** Line 102. *)
Definition dedup (sources : list Source) : list Source :=
  (Map_of ((λ s, (s_uri s, s)) <$> sources)).*2.

(** The map built from the sources seen so far: its keys are distinct
    and each value sits under its own URI. *)
Definition keyed (m : list (string * Source)) : Prop :=
  NoDup m.*1 ∧ ∀ k s, (k, s) ∈ m → k = s_uri s.

End Grounding.

(** ** The level meter ([updateVis], lines 163-185) *)

Module Visualizer.
Import JS.

(** The loop of lines 170-173: the largest bin. *)
Definition peak (data : list Z) : Z :=
  foldl (λ max d, if (max <? d)%Z then d else max) 0%Z data.

Definition level (data : list Z) : Q := inject_Z (peak data) / 255.

(** The sixteen bars; a read past the end gives [undefined], which
    divides to NaN. *)
Definition simplified (data : list Z) : list number :=
  (λ i, match data !! (i * length data / 16) with
        | Some d => Fin (inject_Z d / 255)
        | None => NaN
        end) <$> seq 0 16.

End Visualizer.

(** ** The codec in the words of its contract

    The encoder "clamps each sample to [-1.0, 1.0], scales negative values
    by 32768 and non-negative values by 32767, rounds toward zero, writes
    little-endian 16-bit integers".  These definitions say so directly and
    are compared with the code below. *)

Module CodecSpec.
Import JS.

(** The sample clamped to [-1, 1]; NaN has no clamped value. *)
Definition clamp (d : number) : option Q :=
  match d with
  | Fin q => Some (if Qltb q (-1) then (-1)%Q else if Qltb 1 q then 1%Q else q)
  | PosInf => Some 1%Q
  | NegInf => Some (-1)%Q
  | NaN => None
  end.

(** The clamped value of a finite sample. *)
Definition clampQ (q : Q) : Q :=
  if Qltb q (-1) then (-1)%Q else if Qltb 1 q then 1%Q else q.

Definition scale (c : Q) : Q :=
  if Qltb c 0 then (c * 32768)%Q else (c * 32767)%Q.

Definition round_toward_zero (q : Q) : Z := (Qnum q ÷ QDen q)%Z.

Definition quantize (c : Q) : Z := round_toward_zero (scale c).

(** The two bytes of the two's complement representation, low first. *)
Definition little_endian16 (v : Z) : list Z :=
  let u := (v mod 65536)%Z in [(u mod 256)%Z; (u / 256)%Z].

(** One quantization step. *)
Definition step : Q := 1 # 32768.

(** The decoder: "inverse scaling (divide by 32768)" of the signed
    little-endian 16-bit integer made of two bytes. *)
Definition int16_of_bytes (lo hi : Z) : Z :=
  let u := (lo + 256 * hi)%Z in
  if (u <? 32768)%Z then u else (u - 65536)%Z.

Definition decode_sample (lo hi : Z) : Q := inject_Z (int16_of_bytes lo hi) / 32768.

(** The sample of frame [i] and channel [c] in interleaved data. *)
Definition decode_at (data : list Z) (numChannels c i : nat) : option Q :=
  lo ← data !! ((i * numChannels + c) * 2);
  hi ← data !! ((i * numChannels + c) * 2 + 1);
  Some (decode_sample lo hi).

(** The number of full frames in [len] bytes. *)
Definition full_frames (len numChannels : nat) : nat := len / (2 * numChannels).

End CodecSpec.

(** * Verification *)

(** ** Facts about JavaScript numbers *)

Module JSFacts.
Import JS.

Lemma Qltb_lt (x y : Q) : Qltb x y = true ↔ (x < y)%Q.
Proof.
  unfold Qltb. rewrite negb_true_iff, <- not_true_iff_false, Qle_bool_iff.
  split; [apply Qnot_le_lt | apply Qlt_not_le].
Qed.

Lemma Qltb_ge (x y : Q) : Qltb x y = false ↔ (y <= x)%Q.
Proof.
  unfold Qltb. rewrite negb_false_iff. apply Qle_bool_iff.
Qed.

(** Case analysis on a comparison, with the order fact in the context. *)
Ltac case_Qltb x y :=
  let H := fresh "Hcmp" in
  destruct (Qltb x y) eqn:H;
  [apply Qltb_lt in H | apply Qltb_ge in H].

Lemma truncate_neg (q : Q) :
  (q < 0)%Q → (q <= inject_Z (truncate q))%Q ∧ (inject_Z (truncate q) < q + 1)%Q.
Proof.
  intros Hq. unfold truncate.
  apply Qltb_lt in Hq as ->. lazy iota.
  pose proof (Qle_ceiling q) as H1.
  pose proof (Qceiling_lt q) as H2.
  unfold Z.sub in H2. rewrite inject_Z_plus in H2.
  change (inject_Z (- (1))%Z) with (Qopp 1) in H2. split; [exact H1 | lra].
Qed.

Lemma truncate_nonneg (q : Q) :
  (0 <= q)%Q → (inject_Z (truncate q) <= q)%Q ∧ (q < inject_Z (truncate q) + 1)%Q.
Proof.
  intros Hq. unfold truncate.
  apply Qltb_ge in Hq as ->. lazy iota.
  pose proof (Qfloor_le q) as H1.
  pose proof (Qlt_floor q) as H2.
  rewrite inject_Z_plus in H2. split; [exact H1 | exact H2].
Qed.

Lemma truncate_proper (x y : Q) : (x == y)%Q → truncate x = truncate y.
Proof.
  intros E. unfold truncate.
  assert (Qltb x 0 = Qltb y 0) as ->.
  { unfold Qltb. now rewrite E. }
  destruct (Qltb y 0); [now apply Qceiling_comp | now apply Qfloor_comp].
Qed.

(** Rounding toward zero is the truncating division of the numerator by
    the denominator. *)
Lemma truncate_quot (q : Q) : truncate q = (Qnum q ÷ QDen q)%Z.
Proof.
  destruct q as [n d]. unfold truncate. simpl.
  case_Qltb (n # d) 0%Q.
  - assert (n < 0)%Z as Hn by (unfold Qlt in Hcmp; simpl in Hcmp; lia).
    unfold Qceiling, Qfloor. simpl.
    rewrite <- (Z.opp_involutive n) at 2.
    rewrite Z.quot_opp_l by lia.
    rewrite Z.quot_div_nonneg by lia. reflexivity.
  - assert (0 <= n)%Z as Hn by (unfold Qle in Hcmp; simpl in Hcmp; lia).
    unfold Qfloor. rewrite Z.quot_div_nonneg by lia. reflexivity.
Qed.

Lemma wrap16_range (n : Z) : (-32768 <= wrap16 n <= 32767)%Z.
Proof.
  unfold wrap16.
  pose proof (Z.mod_pos_bound (n + 32768) 65536 eq_refl). lia.
Qed.

Lemma wrap16_id (n : Z) : (-32768 <= n <= 32767)%Z → wrap16 n = n.
Proof.
  intros H. unfold wrap16. rewrite Z.mod_small by lia. lia.
Qed.

Lemma inject_Z_le_inv (a b : Z) : (inject_Z a <= inject_Z b)%Q → (a <= b)%Z.
Proof. intros H; now rewrite Zle_Qle. Qed.

Lemma inject_Z_lt_inv (a b : Z) : (inject_Z a < inject_Z b)%Q → (a < b)%Z.
Proof. intros H; now rewrite Zlt_Qlt. Qed.

End JSFacts.

(** ** The encoder *)

Module EncoderFacts.
Import JS Codec CodecSpec JSFacts.

Lemma clamp_range (d : number) (c : Q) :
  clamp d = Some c → (-1 <= c)%Q ∧ (c <= 1)%Q.
Proof.
  destruct d as [q | | |]; simpl; intros [= <-]; try (split; lra).
  case_Qltb q (-1)%Q; [split; lra |].
  case_Qltb 1%Q q; split; lra.
Qed.

(** The value of [s] at line 57 is the clamped sample. *)
Lemma clamped_by_code (d : number) (c : Q) :
  clamp d = Some c →
  ∃ c', Math_max (Fin (-1)) (Math_min (Fin 1) d) = Fin c' ∧ (c' == c)%Q.
Proof.
  destruct d as [q | | |]; simpl; intros [= <-].
  - unfold Math_min, Math_max, lt.
    case_Qltb q 1%Q.
    + case_Qltb (-1)%Q q.
      * exists q. split; [reflexivity |].
        case_Qltb q (-1)%Q; [lra |]. case_Qltb 1%Q q; [lra | reflexivity].
      * exists (-1)%Q. split; [reflexivity |].
        case_Qltb q (-1)%Q; [reflexivity |]. case_Qltb 1%Q q; lra.
    + exists 1%Q. split; [reflexivity |].
      case_Qltb q (-1)%Q; [lra |]. case_Qltb 1%Q q; lra.
  - exists 1%Q. split; reflexivity.
  - exists (-1)%Q. split; reflexivity.
Qed.

Lemma scale_proper (x y : Q) : (x == y)%Q → (scale x == scale y)%Q.
Proof.
  intros E. unfold scale.
  assert (Qltb x 0 = Qltb y 0) as -> by (unfold Qltb; now rewrite E).
  destruct (Qltb y 0); now rewrite E.
Qed.

Lemma scale_range (c : Q) :
  (-1 <= c)%Q → (c <= 1)%Q →
  (-32768 <= truncate (scale c) <= 32767)%Z.
Proof.
  intros Hlo Hhi. unfold scale. case_Qltb c 0%Q.
  - destruct (truncate_neg (c * 32768)) as [H1 H2]; [lra |].
    split.
    + apply inject_Z_le_inv. change (inject_Z (-32768)) with (-32768 # 1)%Q.
      lra.
    + assert (truncate (c * 32768) < 1)%Z; [| lia].
      apply inject_Z_lt_inv. change (inject_Z 1) with 1%Q. lra.
  - destruct (truncate_nonneg (c * 32767)) as [H1 H2]; [lra |].
    split.
    + assert (-1 < truncate (c * 32767))%Z; [| lia].
      apply inject_Z_lt_inv. change (inject_Z (-1)) with (-1 # 1)%Q. lra.
    + apply inject_Z_le_inv. change (inject_Z 32767) with (32767 # 1)%Q.
      lra.
Qed.

(** The code computes the quantized value of the clamped sample. *)
Lemma pcm_sample_quantize (d : number) (c : Q) :
  clamp d = Some c → pcm_sample d = quantize c.
Proof.
  intros Hc. destruct (clamp_range d c Hc) as [Hlo Hhi].
  destruct (clamped_by_code d c Hc) as (c' & Hs & E).
  unfold pcm_sample. rewrite Hs. unfold quantize, round_toward_zero.
  rewrite <- truncate_quot, <- (truncate_proper _ _ (scale_proper _ _ E)).
  assert (-32768 <= truncate (scale c') <= 32767)%Z as Hr.
  { apply scale_range; lra. }
  unfold scale in *. simpl lt. change (Qltb c' (0 # 1)) with (Qltb c' 0).
  destruct (Qltb c' 0); simpl; now apply wrap16_id.
Qed.

Lemma pcm_sample_NaN : pcm_sample NaN = 0%Z.
Proof. reflexivity. Qed.

Lemma pcm_sample_range (d : number) : (-32768 <= pcm_sample d <= 32767)%Z.
Proof.
  unfold pcm_sample.
  destruct (if lt _ _ then _ else _); simpl; try lia. apply wrap16_range.
Qed.

Lemma int16_bytes_little_endian (v : Z) : int16_bytes v = little_endian16 v.
Proof.
  unfold int16_bytes, little_endian16. f_equal; [| f_equal].
  - change 255%Z with (Z.ones 8). rewrite Z.land_ones by lia.
    change (2 ^ 8)%Z with 256%Z. Z.div_mod_to_equations. lia.
  - change 255%Z with (Z.ones 8). rewrite Z.land_ones by lia.
    rewrite Z.shiftr_div_pow2 by lia.
    change (2 ^ 8)%Z with 256%Z. Z.div_mod_to_equations. lia.
Qed.

Lemma int16_bytes_byte (v b : Z) : b ∈ int16_bytes v → (0 <= b < 256)%Z.
Proof.
  rewrite int16_bytes_little_endian. unfold little_endian16.
  rewrite !elem_of_cons, elem_of_nil. intros [-> | [-> | []]].
  - apply Z.mod_pos_bound. lia.
  - Z.div_mod_to_equations. lia.
Qed.

Lemma flat_map_pairs_length (l : list Z) :
  length (flat_map int16_bytes l) = 2 * length l.
Proof. induction l as [| v l IH]; simpl; [reflexivity | rewrite IH; lia]. Qed.

Lemma flat_map_pairs_lookup (l : list Z) (i : nat) (v : Z) :
  l !! i = Some v →
  flat_map int16_bytes l !! (2 * i) = Some (Z.land v 255) ∧
  flat_map int16_bytes l !! (2 * i + 1) = Some (Z.land (Z.shiftr v 8) 255).
Proof.
  revert i. induction l as [| w l IH]; intros i Hi; [discriminate |].
  destruct i as [| i].
  - injection Hi as ->. split; reflexivity.
  - simpl in Hi. apply IH in Hi as [H1 H2].
    replace (2 * S i) with (S (S (2 * i))) by lia. simpl. split; assumption.
Qed.

Lemma createPCMBlob_int16_lookup (data : list number) (i : nat) (d : number) :
  data !! i = Some d → createPCMBlob_int16 data !! i = Some (pcm_sample d).
Proof.
  intros Hd. unfold createPCMBlob_int16. now rewrite list_lookup_fmap, Hd.
Qed.

Lemma createPCMBlob_bytes_length (data : list number) :
  length (createPCMBlob_bytes data) = 2 * length data.
Proof.
  unfold createPCMBlob_bytes. rewrite flat_map_pairs_length.
  unfold createPCMBlob_int16. now rewrite length_map.
Qed.

(** C5.  The encoder is a total function of the samples: it rejects no
    input.  For every sample of the input, the 16-bit value it stores is
    in the signed 16-bit range, also when the sample lies outside
    [-1, 1] or is an infinity or NaN; for a sample other than NaN the
    value is the sample clamped to [-1, 1], scaled by 32768 when negative
    and by 32767 otherwise, and rounded toward zero (NaN is stored as 0);
    and the bytes produced are the little-endian two's complement bytes
    of these values, two per sample. *)
Theorem createPCMBlob_clamps_scales_truncates
    (data : list number) (i : nat) (d : number) :
  data !! i = Some d →
  createPCMBlob_int16 data !! i = Some (pcm_sample d) ∧
  (-32768 <= pcm_sample d <= 32767)%Z ∧
  (∀ c, clamp d = Some c →
        (-1 <= c)%Q ∧ (c <= 1)%Q ∧ pcm_sample d = quantize c) ∧
  (d = NaN → pcm_sample d = 0%Z) ∧
  length (createPCMBlob_bytes data) = 2 * length data ∧
  createPCMBlob_bytes data !! (2 * i) = little_endian16 (pcm_sample d) !! 0 ∧
  createPCMBlob_bytes data !! (2 * i + 1) = little_endian16 (pcm_sample d) !! 1.
Proof.
  intros Hd.
  pose proof (createPCMBlob_int16_lookup data i d Hd) as Hv.
  split; [exact Hv |].
  split; [apply pcm_sample_range |].
  split.
  { intros c Hc. destruct (clamp_range d c Hc).
    repeat split; try assumption. now apply pcm_sample_quantize. }
  split; [now intros -> |].
  split; [apply createPCMBlob_bytes_length |].
  unfold createPCMBlob_bytes.
  destruct (flat_map_pairs_lookup _ _ _ Hv) as [-> ->].
  pose proof (int16_bytes_little_endian (pcm_sample d)) as E.
  unfold int16_bytes in E. rewrite <- E. split; reflexivity.
Qed.

Lemma createPCMBlob_clamps_scales_truncates_witness :
  createPCMBlob_int16 [Fin (1 # 2); Fin (-3); NaN] !! 1 =
    Some (pcm_sample (Fin (-3))) ∧
  (-32768 <= pcm_sample (Fin (-3)) <= 32767)%Z ∧
  (∀ c, clamp (Fin (-3)) = Some c →
        (-1 <= c)%Q ∧ (c <= 1)%Q ∧ pcm_sample (Fin (-3)) = quantize c) ∧
  (Fin (-3) = NaN → pcm_sample (Fin (-3)) = 0%Z) ∧
  length (createPCMBlob_bytes [Fin (1 # 2); Fin (-3); NaN]) = 2 * 3 ∧
  createPCMBlob_bytes [Fin (1 # 2); Fin (-3); NaN] !! (2 * 1) =
    little_endian16 (pcm_sample (Fin (-3))) !! 0 ∧
  createPCMBlob_bytes [Fin (1 # 2); Fin (-3); NaN] !! (2 * 1 + 1) =
    little_endian16 (pcm_sample (Fin (-3))) !! 1.
Proof.
  apply (createPCMBlob_clamps_scales_truncates
           [Fin (1 # 2); Fin (-3); NaN] 1 (Fin (-3))).
  reflexivity.
Defined.

(** A stored value is read back by its two bytes. *)
Lemma int16_of_bytes_little_endian (v : Z) :
  (-32768 <= v <= 32767)%Z →
  int16_of_bytes (Z.land v 255) (Z.land (Z.shiftr v 8) 255) = v.
Proof.
  intros Hv. pose proof (int16_bytes_little_endian v) as E.
  unfold int16_bytes, little_endian16 in E.
  injection E as -> ->. unfold int16_of_bytes.
  destruct (Z.ltb_spec ((v mod 65536) mod 256 + 256 * (v mod 65536 / 256))
              32768); Z.div_mod_to_equations; lia.
Qed.

End EncoderFacts.

(** ** The decoder *)

Module DecoderFacts.
Import JS Codec CodecSpec JSFacts.

Lemma lor_shiftl_bytes (lo hi : Z) :
  (0 <= lo < 256)%Z → Z.lor lo (Z.shiftl hi 8) = (lo + 256 * hi)%Z.
Proof.
  intros Hlo. rewrite <- Z.add_nocarry_lor.
  - rewrite Z.shiftl_mul_pow2 by lia. change (2 ^ 8)%Z with 256%Z. lia.
  - apply Z.bits_inj'. intros n Hn.
    rewrite Z.land_spec, Z.bits_0.
    destruct (Z.lt_ge_cases n 8) as [Hlt | Hge].
    + rewrite Z.shiftl_spec_low by lia. apply andb_false_r.
    + destruct (Z.eq_dec lo 0%Z) as [-> | Hnz]; [now rewrite Z.bits_0 |].
      rewrite (Z.bits_above_log2 lo n); [reflexivity | lia |].
      assert (Z.log2 lo < 8)%Z; [| lia].
      apply Z.log2_lt_pow2; [lia |]. change (2 ^ 8)%Z with 256%Z. lia.
Qed.

(** On bytes, [getInt16] reads the integer the contract describes. *)
Lemma getInt16_spec (data : list Z) (offset : nat) (lo hi : Z) :
  data !! offset = Some lo → data !! (offset + 1) = Some hi →
  (0 <= lo < 256)%Z →
  getInt16 data offset = Some (int16_of_bytes lo hi).
Proof.
  intros H1 H2 Hlo. unfold getInt16. rewrite H1, H2. simpl.
  rewrite lor_shiftl_bytes by assumption. unfold int16_of_bytes.
  f_equal. destruct (Z.leb_spec 32768 (lo + 256 * hi));
    destruct (Z.ltb_spec (lo + 256 * hi) 32768); lia || reflexivity.
Qed.

Lemma getInt16_in_bounds (data : list Z) (offset : nat) :
  offset + 1 < length data → is_Some (getInt16 data offset).
Proof.
  intros H. unfold getInt16.
  destruct (lookup_lt_is_Some_2 data offset) as [lo ->]; [lia |].
  destruct (lookup_lt_is_Some_2 data (offset + 1)) as [hi ->]; [lia |].
  simpl. eauto.
Qed.

(** The inner loop never throws, keeps the length of the channel, and
    overwrites exactly the visited indices that pass the guard. *)
Lemma inner_loop (data : list Z) (nc c m : nat) (cd0 : list Q) :
  ∃ cd,
    foldl (store_frame data nc c) (Some cd0) (seq 0 m) = Some cd ∧
    length cd = length cd0 ∧
    ∀ i, i < length cd0 →
      cd !! i =
        if bool_decide (i < m ∧ (i * nc + c) * 2 + 1 < length data)
        then stored data nc c i else cd0 !! i.
Proof.
  induction m as [| m (cd & Hrun & Hlen & Hget)].
  - exists cd0. split; [reflexivity |]. split; [reflexivity |].
    intros i _. rewrite bool_decide_eq_false_2 by lia. reflexivity.
  - rewrite seq_S, foldl_snoc, Hrun. simpl.
    case_bool_decide as Hguard.
    + destruct (getInt16_in_bounds data _ Hguard) as [v Hv].
      rewrite Hv. simpl. eexists. split; [reflexivity |].
      split; [now rewrite length_insert |].
      intros i Hi. destruct (decide (i = m)) as [-> | Hne].
      * rewrite list_lookup_insert_eq by lia.
        rewrite bool_decide_eq_true_2 by lia.
        unfold stored. now rewrite Hv.
      * rewrite list_lookup_insert_ne by congruence.
        rewrite Hget by assumption.
        repeat case_bool_decide; reflexivity || lia.
    + exists cd. split; [reflexivity |]. split; [assumption |].
      intros i Hi. rewrite Hget by assumption.
      destruct (decide (i = m)) as [-> | Hne];
        repeat case_bool_decide; reflexivity || lia.
Qed.

(** The outer loop fills the first [k] channels and leaves the others. *)
Lemma outer_loop (data : list Z) (nc : nat) (fc : Q) (k : nat)
    (chans0 : list (list Q)) :
  k ≤ length chans0 →
  ∃ chans,
    foldl (fill_channel data nc fc) (Some chans0) (seq 0 k) = Some chans ∧
    length chans = length chans0 ∧
    ∀ c, c < length chans0 →
      chans !! c =
        if bool_decide (c < k)
        then cd0 ← chans0 !! c;
             foldl (store_frame data nc c) (Some cd0) (loop_indices fc)
        else chans0 !! c.
Proof.
  induction k as [| k IH]; intros Hk.
  - exists chans0. split; [reflexivity |]. split; [reflexivity |].
    intros c _. reflexivity.
  - destruct IH as (chans & Hrun & Hlen & Hget); [lia |].
    rewrite seq_S, foldl_snoc, Hrun. simpl.
    rewrite Hget by lia.
    rewrite bool_decide_eq_false_2 by lia.
    destruct (lookup_lt_is_Some_2 chans0 k) as [cd0 Hcd0]; [lia |].
    rewrite Hcd0. simpl.
    destruct (inner_loop data nc k (Z.to_nat (Qceiling fc)) cd0)
      as (cd & Hcd & _ & _).
    unfold loop_indices. rewrite Hcd. simpl.
    eexists. split; [reflexivity |]. split; [now rewrite length_insert |].
    intros c Hc. destruct (decide (c = k)) as [-> | Hne].
    + rewrite list_lookup_insert_eq by lia.
      rewrite bool_decide_eq_true_2 by lia. rewrite Hcd0. simpl.
      now rewrite Hcd.
    + rewrite list_lookup_insert_ne by congruence.
      rewrite Hget by assumption.
      repeat case_bool_decide; reflexivity || lia.
Qed.

Lemma frameCount_nonneg (data : list Z) (nc : nat) :
  (0 <= frameCount_of data nc)%Q.
Proof.
  unfold frameCount_of, Qdiv. apply Qmult_le_0_compat.
  - change 0%Q with (inject_Z 0). rewrite <- Zle_Qle. lia.
  - destruct (Z.of_nat (2 * nc)) eqn:E; try lia; unfold Qinv, Qle; simpl; lia.
Qed.

(** Converting [frameCount] to a buffer length gives the number of full
    frames. *)
Lemma frameCount_truncate (data : list Z) (nc : nat) :
  0 < nc →
  Z.to_nat (truncate (frameCount_of data nc)) = full_frames (length data) nc.
Proof.
  intros Hnc. unfold truncate.
  rewrite (proj2 (Qltb_ge _ _) (frameCount_nonneg data nc)).
  unfold frameCount_of, full_frames.
  rewrite <- (Nat2Z.id (length data / (2 * nc))), Nat2Z.inj_div.
  f_equal.
  destruct (Z.of_nat (2 * nc)) as [| p | p] eqn:E; try lia.
  unfold Qdiv, Qinv, Qmult, inject_Z, Qfloor. simpl.
  now rewrite Z.mul_1_r.
Qed.

Lemma loop_indices_cover (data : list Z) (nc : nat) :
  0 < nc →
  full_frames (length data) nc ≤ Z.to_nat (Qceiling (frameCount_of data nc)).
Proof.
  intros Hnc. rewrite <- frameCount_truncate by assumption.
  unfold truncate.
  rewrite (proj2 (Qltb_ge _ _) (frameCount_nonneg data nc)).
  apply Z2Nat.inj_le.
  - apply inject_Z_le_inv. change (inject_Z 0) with 0%Q.
    assert (Qfloor 0 ≤ Qfloor (frameCount_of data nc))%Z as H
      by (apply Qfloor_resp_le, frameCount_nonneg).
    rewrite Zle_Qle in H. exact H.
  - apply inject_Z_le_inv. change (inject_Z 0) with 0%Q.
    pose proof (Qle_ceiling (frameCount_of data nc)).
    pose proof (frameCount_nonneg data nc). lra.
  - apply inject_Z_le_inv, Qle_floor_ceiling.
Qed.

(** A frame below [full_frames] lies entirely inside the data. *)
Lemma full_frame_in_bounds (len nc c i : nat) :
  c < nc → i < full_frames len nc → (i * nc + c) * 2 + 1 < len.
Proof.
  intros Hc Hi. unfold full_frames in Hi.
  pose proof (Nat.Div0.mul_div_le len (2 * nc)). nia.
Qed.

(** With at least one full frame in the data, the decoder returns a
    buffer of the full frames, every sample read at its interleaved
    offset and divided by 32768. *)
Lemma pcmToAudioBuffer_full_frames (data : list Z) (rate : Q) (nc : nat) :
  0 < nc → 2 * nc ≤ length data →
  ∃ chans,
    pcmToAudioBuffer data rate nc =
      Some (mkAudioBuffer nc (full_frames (length data) nc) rate chans) ∧
    length chans = nc ∧
    ∀ c, c < nc →
      ∃ cd, chans !! c = Some cd ∧
            length cd = full_frames (length data) nc ∧
            ∀ i, i < full_frames (length data) nc →
                 cd !! i = stored data nc c i.
Proof.
  intros Hnc Hlen.
  assert (0 < full_frames (length data) nc) as Hframes.
  { unfold full_frames. apply Nat.div_str_pos. lia. }
  unfold pcmToAudioBuffer.
  rewrite bool_decide_eq_false_2 by lia.
  unfold createBuffer. rewrite frameCount_truncate by assumption.
  rewrite bool_decide_eq_false_2 by lia. simpl.
  set (n := full_frames (length data) nc) in *.
  destruct (outer_loop data nc (frameCount_of data nc) nc
              (replicate nc (replicate n 0%Q)))
    as (chans & Hrun & Hchans & Hget).
  { now rewrite length_replicate. }
  rewrite Hrun. simpl. exists chans. split; [reflexivity |].
  rewrite length_replicate in Hchans, Hget. split; [assumption |].
  intros c Hc. rewrite Hget by assumption.
  rewrite bool_decide_eq_true_2 by assumption.
  rewrite lookup_replicate_2 by assumption. simpl.
  destruct (inner_loop data nc c
              (Z.to_nat (Qceiling (frameCount_of data nc)))
              (replicate n 0%Q)) as (cd & Hcd & Hcdlen & Hcdget).
  unfold loop_indices. rewrite Hcd. exists cd. split; [reflexivity |].
  rewrite length_replicate in Hcdlen, Hcdget. split; [assumption |].
  intros i Hi. rewrite Hcdget by assumption.
  pose proof (loop_indices_cover data nc Hnc).
  pose proof (full_frame_in_bounds (length data) nc c i Hc Hi).
  rewrite bool_decide_eq_true_2; [reflexivity | split; [fold n in H |]; lia].
Qed.

End DecoderFacts.

(** ** Decoding short inputs, and the round trip *)

Module CodecClaims.
Import JS Codec CodecSpec JSFacts EncoderFacts DecoderFacts.

(** C6, as stated, fails: the buffer returned for an empty input has one
    frame, not zero. *)
Lemma pcmToAudioBuffer_empty_not_zero_length :
  ¬ ∃ b, pcmToAudioBuffer [] 24000 1 = Some b ∧ frames b = 0.
Proof. intros (b & [= <-] & H). discriminate H. Qed.

(** C6, amended.  Decoding an empty input is not an error: it returns a
    buffer of one silent frame per channel. *)
Theorem pcmToAudioBuffer_empty (rate : Q) (nc : nat) :
  0 < nc →
  pcmToAudioBuffer [] rate nc =
    Some (mkAudioBuffer nc 1 rate (replicate nc [0%Q])).
Proof.
  intros Hnc. unfold pcmToAudioBuffer, createBuffer.
  rewrite bool_decide_eq_true_2 by reflexivity.
  change (Z.to_nat (truncate 1)) with 1.
  rewrite bool_decide_eq_false_2 by lia. reflexivity.
Qed.

Lemma pcmToAudioBuffer_empty_witness :
  pcmToAudioBuffer [] 24000 1 = Some (mkAudioBuffer 1 1 24000 [[0%Q]]).
Proof. apply (pcmToAudioBuffer_empty 24000 1). lia. Defined.

(** C7, where the code departs from it.  A non-empty input shorter than
    one frame has [frameCount < 1]; [createBuffer] is asked for a buffer
    of zero frames and throws.  The guard of line 30 keeps the empty
    input away from this call, but not the short one. *)
Theorem pcmToAudioBuffer_short_input_throws
    (data : list Z) (rate : Q) (nc : nat) :
  0 < length data → length data < 2 * nc →
  pcmToAudioBuffer data rate nc = None.
Proof.
  intros Hpos Hshort. unfold pcmToAudioBuffer.
  rewrite bool_decide_eq_false_2 by lia.
  unfold createBuffer. rewrite frameCount_truncate by lia.
  unfold full_frames. rewrite Nat.div_small by lia.
  rewrite bool_decide_eq_true_2 by (now right). reflexivity.
Qed.

Lemma pcmToAudioBuffer_short_input_throws_witness :
  pcmToAudioBuffer [1%Z] 24000 1 = None.
Proof.
  apply (pcmToAudioBuffer_short_input_throws [1%Z] 24000 1); simpl; lia.
Defined.

(** With at least one full frame, the trailing partial frame is dropped
    and the full frames are decoded as the contract says. *)
Lemma pcmToAudioBuffer_drops_partial_frame
    (data : list Z) (rate : Q) (nc : nat) :
  0 < nc → 2 * nc ≤ length data →
  Forall (λ b, 0 <= b < 256)%Z data →
  ∃ b, pcmToAudioBuffer data rate nc = Some b ∧
       frames b = full_frames (length data) nc ∧
       length (channels b) = nc ∧
       ∀ c i, c < nc → i < full_frames (length data) nc →
         ∃ cd, channels b !! c = Some cd ∧
               length cd = full_frames (length data) nc ∧
               cd !! i = decode_at data nc c i ∧ is_Some (cd !! i).
Proof.
  intros Hnc Hlen Hbytes.
  destruct (pcmToAudioBuffer_full_frames data rate nc Hnc Hlen)
    as (chans & Hrun & Hchans & Hget).
  eexists. split; [exact Hrun |]. simpl.
  split; [reflexivity |]. split; [assumption |].
  intros c i Hc Hi. destruct (Hget c Hc) as (cd & Hcd & Hcdlen & Hsample).
  exists cd. split; [assumption |]. split; [assumption |].
  rewrite Hsample by assumption.
  pose proof (full_frame_in_bounds (length data) nc c i Hc Hi) as Hin.
  destruct (lookup_lt_is_Some_2 data ((i * nc + c) * 2)) as [lo Hlo]; [lia |].
  destruct (lookup_lt_is_Some_2 data ((i * nc + c) * 2 + 1)) as [hi Hhi];
    [lia |].
  unfold stored, decode_at. rewrite Hlo, Hhi. simpl.
  rewrite (getInt16_spec data _ lo hi Hlo Hhi).
  - simpl. split; [reflexivity | eauto].
  - rewrite Forall_forall in Hbytes. apply Hbytes.
    apply list_elem_of_lookup. eauto.
Qed.

(** The error of quantizing a sample of [-1, 1] and scaling back. *)
Lemma quantize_error (s : Q) :
  (-1 <= s)%Q → (s <= 1)%Q →
  let d := (inject_Z (truncate (scale s)) / 32768)%Q in
  (Qabs (s - d) < 2 * step)%Q ∧
  ((s < 0)%Q → (Qabs (s - d) < step)%Q) ∧
  ((0 <= s)%Q → (d <= s)%Q).
Proof.
  intros Hlo Hhi d. subst d. unfold scale, step, Qdiv.
  change (/ 32768)%Q with (1 # 32768)%Q.
  case_Qltb s 0%Q.
  - destruct (truncate_neg (s * 32768)) as [H1 H2]; [lra |].
    set (v := inject_Z (truncate (s * 32768))) in *. clearbody v.
    assert (Qabs (s - v * (1 # 32768)) < 1 # 32768)%Q as Hstep.
    { apply Qabs_Qlt_condition. split; lra. }
    split; [lra |]. split; [intros _; exact Hstep | intros; lra].
  - destruct (truncate_nonneg (s * 32767)) as [H1 H2]; [lra |].
    set (v := inject_Z (truncate (s * 32767))) in *. clearbody v.
    split; [apply Qabs_Qlt_condition; split; lra |].
    split; [intros; lra | intros _; lra].
Qed.

(** C4, as stated, fails, and it fails inside [-1, 1]: the sample
    65535/65536 is encoded as 32766 and decoded as 32766/32768, one and
    a half quantization steps below it. *)
Lemma roundtrip_exceeds_one_step :
  ∃ b cd d,
    pcmToAudioBuffer (createPCMBlob_bytes [Fin (65535 # 65536)]) 24000 1
      = Some b ∧
    channels b !! 0 = Some cd ∧ cd !! 0 = Some d ∧
    ¬ (Qabs ((65535 # 65536) - d) <= step)%Q.
Proof.
  eexists _, _, _. split; [vm_compute; reflexivity |].
  split; [reflexivity |]. split; [reflexivity |].
  intros H. vm_compute in H. apply H. reflexivity.
Qed.

(** C4, amended.  For a sample of [-1, 1], decoding the encoding of the
    sequence gives back, at the same position, a value less than two
    quantization steps away from the sample; less than one step away
    when the sample is negative; and never above a non-negative sample.
    The decoded buffer has one frame per sample. *)
Theorem roundtrip_within_two_steps
    (data : list number) (rate : Q) (i : nat) (s : Q) :
  data !! i = Some (Fin s) → (-1 <= s)%Q → (s <= 1)%Q →
  ∃ b cd d,
    pcmToAudioBuffer (createPCMBlob_bytes data) rate 1 = Some b ∧
    frames b = length data ∧
    channels b !! 0 = Some cd ∧ cd !! i = Some d ∧
    (Qabs (s - d) < 2 * step)%Q ∧
    ((s < 0)%Q → (Qabs (s - d) < step)%Q) ∧
    ((0 <= s)%Q → (d <= s)%Q).
Proof.
  intros Hs Hlo Hhi.
  pose proof (lookup_lt_Some _ _ _ Hs) as Hi.
  pose proof (createPCMBlob_int16_lookup data i (Fin s) Hs) as Hv.
  pose proof (createPCMBlob_bytes_length data) as Hlen.
  destruct (pcmToAudioBuffer_full_frames (createPCMBlob_bytes data) rate 1)
    as (chans & Hrun & Hchans & Hget); [lia | lia |].
  assert (full_frames (length (createPCMBlob_bytes data)) 1 = length data)
    as Hframes.
  { unfold full_frames. rewrite Hlen. change (2 * 1) with 2.
    rewrite Nat.mul_comm. apply Nat.div_mul. lia. }
  rewrite Hframes in *.
  destruct (Hget 0) as (cd & Hcd & _ & Hsample); [lia |].
  specialize (Hsample i Hi).
  destruct (flat_map_pairs_lookup _ _ _ Hv) as [Hb0 Hb1].
  fold (createPCMBlob_bytes data) in Hb0, Hb1.
  unfold stored in Hsample.
  replace ((i * 1 + 0) * 2) with (2 * i) in Hsample by lia.
  rewrite (getInt16_spec _ _ _ _ Hb0 Hb1) in Hsample.
  2:{ apply (int16_bytes_byte (pcm_sample (Fin s))). left. }
  rewrite int16_of_bytes_little_endian in Hsample
    by apply pcm_sample_range.
  simpl in Hsample.
  assert (pcm_sample (Fin s) = truncate (scale s)) as Hq.
  { rewrite (pcm_sample_quantize (Fin s) s).
    - unfold quantize, round_toward_zero. now rewrite truncate_quot.
    - simpl. rewrite (proj2 (Qltb_ge _ _) Hlo), (proj2 (Qltb_ge _ _) Hhi).
      reflexivity. }
  rewrite Hq in Hsample.
  eexists _, cd, _. split; [exact Hrun |]. simpl.
  split; [reflexivity |]. split; [exact Hcd |]. split; [exact Hsample |].
  now apply quantize_error.
Qed.

Lemma roundtrip_within_two_steps_witness :
  ∃ b cd d,
    pcmToAudioBuffer
      (createPCMBlob_bytes [Fin (1 # 2); Fin (65535 # 65536)]) 24000 1
      = Some b ∧
    frames b = 2 ∧
    channels b !! 0 = Some cd ∧ cd !! 1 = Some d ∧
    (Qabs ((65535 # 65536) - d) < 2 * step)%Q ∧
    (((65535 # 65536) < 0)%Q → (Qabs ((65535 # 65536) - d) < step)%Q) ∧
    ((0 <= (65535 # 65536))%Q → (d <= (65535 # 65536))%Q).
Proof.
  apply (roundtrip_within_two_steps
           [Fin (1 # 2); Fin (65535 # 65536)] 24000 1 (65535 # 65536)).
  - reflexivity.
  - vm_compute. discriminate.
  - vm_compute. discriminate.
Defined.

End CodecClaims.

(** ** The playback scheduler *)

Module SchedulerFacts.
Import JS JSFacts Scheduler.

(** The only call of [source.start] made by [enqueue]. *)
Lemma enqueue_started (now dur : Q) (p : playback) :
  started (enqueue now dur p) =
    started p ++
    [mkScheduled (next_node p)
       (if Qltb (nextStartTime p) now then (now + min_lead)%Q
        else nextStartTime p) dur].
Proof. reflexivity. Qed.



(** [source.start] calls are only ever appended. *)
Lemma started_step (p : playback) (e : event) :
  ∃ l, started (step p e) = started p ++ l.
Proof.
  destruct e; simpl.
  - eexists. apply enqueue_started.
  - exists []. now rewrite app_nil_r.
  - exists []. now rewrite app_nil_r.
Qed.

Lemma started_run (p : playback) (es : list event) :
  started (run p es) = started p ++ scheduled_by p es.
Proof.
  unfold scheduled_by, run. revert p.
  induction es as [| e es IH]; intros p; simpl.
  - now rewrite drop_all, app_nil_r.
  - destruct (started_step p e) as [l Hl].
    rewrite IH, Hl, <- app_assoc, !drop_app_length. reflexivity.
Qed.

Lemma scheduled_by_snoc (p : playback) (es : list event) (e : event) :
  scheduled_by p (es ++ [e]) =
    scheduled_by p es ++ scheduled_by (run p es) [e].
Proof.
  apply (app_inv_head (started p)).
  rewrite <- started_run, app_assoc, <- started_run.
  unfold run at 1. rewrite foldl_snoc. fold (run p es).
  apply (started_run (run p es) [e]).
Qed.

Lemma scheduled_by_one (p : playback) (e : event) :
  scheduled_by p [e] =
    match e with
    | Fragment now dur =>
        [mkScheduled (next_node p)
           (if Qltb (nextStartTime p) now then (now + min_lead)%Q
            else nextStartTime p) dur]
    | _ => []
    end.
Proof.
  unfold scheduled_by, run. destruct e; simpl.
  - now rewrite drop_app_length.
  - now rewrite drop_all.
  - now rewrite drop_all.
Qed.

(** [enqueue] never moves the cursor back before it starts the source. *)
Lemma enqueue_start_after_cursor (now cursor : Q) :
  (cursor <= (if Qltb cursor now then now + min_lead else cursor))%Q.
Proof. unfold min_lead. case_Qltb cursor now; lra. Qed.

(** Completion callbacks leave the cursor and the device calls alone. *)
Lemma run_ended (p : playback) (sources : list nat) :
  nextStartTime (run p (Ended <$> sources)) = nextStartTime p ∧
  started (run p (Ended <$> sources)) = started p ∧
  next_node (run p (Ended <$> sources)) = next_node p.
Proof.
  revert p. induction sources as [| n sources IH]; intros p; [easy |].
  assert (run p (Ended <$> n :: sources) =
          run (onended n p) (Ended <$> sources)) as -> by reflexivity.
  destruct (IH (onended n p)) as (-> & -> & ->). easy.
Qed.

(** C3.  An interruption stops every source in flight, empties the set
    of sources in flight and resets the cursor to zero.  The next
    fragment, also after the completion callbacks of the stopped
    sources, starts at a time >= [now], and this time is a function of
    [now] alone: it is the same whatever the state before the
    interruption. *)
Theorem interrupt_then_enqueue
    (p : playback) (sources : list nat) (now dur : Q) :
  let start := if Qltb 0 now then (now + min_lead)%Q else 0%Q in
  audioSources (interrupt p) = ∅ ∧
  nextStartTime (interrupt p) = 0%Q ∧
  (∀ n, n ∈ audioSources p → n ∈ stopped (interrupt p)) ∧
  scheduled_by p (Interrupted :: (Ended <$> sources) ++ [Fragment now dur]) =
    [mkScheduled (next_node p) start dur] ∧
  (now <= start)%Q.
Proof.
  intros start. split; [reflexivity |]. split; [reflexivity |].
  split.
  { intros n Hn. simpl. apply elem_of_app. right. now apply elem_of_elements. }
  split.
  - change (Interrupted :: (Ended <$> sources) ++ [Fragment now dur])
      with ((Interrupted :: (Ended <$> sources)) ++ [Fragment now dur]).
    rewrite scheduled_by_snoc, scheduled_by_one.
    assert (run p (Interrupted :: (Ended <$> sources)) =
            run (interrupt p) (Ended <$> sources)) as -> by reflexivity.
    destruct (run_ended (interrupt p) sources) as (Hc & Hs & Hn).
    rewrite Hc, Hn. simpl.
    unfold scheduled_by.
    assert (run p (Interrupted :: (Ended <$> sources)) =
            run (interrupt p) (Ended <$> sources)) as -> by reflexivity.
    rewrite Hs. simpl. now rewrite drop_all.
  - subst start. unfold min_lead. case_Qltb 0%Q now; lra.
Qed.

End SchedulerFacts.

(** ** The tool dispatcher *)

Module DispatcherFacts.
Import Json Dispatcher.

Lemma call_handler_acks (fc : FunctionCall) (called : list effect) :
  call_handler fc = Some called → acks called = [].
Proof.
  unfold call_handler. repeat case_bool_decide.
  - destruct (args fc); simpl; [intros [= <-]; reflexivity | discriminate].
  - intros [= <-]. reflexivity.
  - intros [= <-]. reflexivity.
Qed.

Lemma call_handler_has_args (fc : FunctionCall) :
  has_args fc → is_Some (call_handler fc).
Proof.
  unfold has_args, call_handler. intros H. repeat case_bool_decide; eauto.
  destruct (H ltac:(assumption)) as [a ->]. simpl. eauto.
Qed.

Lemma acks_app (es1 es2 : list effect) : acks (es1 ++ es2) = acks es1 ++ acks es2.
Proof. unfold acks. apply omap_app. Qed.

(** X19.  When every call can be handed to its handler, the loop runs to
    its end and sends one acknowledgement per call, in order, each with the
    id and the name of its call; the name need not be a registered one. *)
Lemma dispatch_acknowledges_each_call (fcs : list FunctionCall) :
  Forall has_args fcs →
  (dispatch fcs).2 = Completed ∧
  acks (dispatch fcs).1 = (λ fc, (id fc, name fc)) <$> fcs.
Proof.
  induction 1 as [| fc fcs Hfc _ [IHo IHa]]; [easy |].
  simpl. destruct (call_handler_has_args fc Hfc) as [called Hcalled].
  rewrite Hcalled. destruct (dispatch fcs) as [later o]. simpl in *.
  split; [assumption |].
  rewrite acks_app, (call_handler_acks fc called Hcalled). simpl.
  now rewrite IHa.
Qed.

(** C8, where the code departs from it.  A [create_presentation] call
    without [args] makes line 221 throw before line 225 is reached: the
    loop is left, and neither this call nor any later call of the
    message is acknowledged.  The calls before it are. *)
Theorem dispatch_missing_args_not_acknowledged
    (before after : list FunctionCall) (fc : FunctionCall) :
  Forall has_args before →
  name fc = Some "create_presentation" → args fc = None →
  (dispatch (before ++ fc :: after)).2 = Threw ∧
  acks (dispatch (before ++ fc :: after)).1 =
    (λ fc, (id fc, name fc)) <$> before.
Proof.
  intros Hbefore Hname Hargs.
  assert (call_handler fc = None) as Hthrow.
  { unfold call_handler. rewrite bool_decide_eq_true_2 by assumption.
    now rewrite Hargs. }
  induction Hbefore as [| b before Hb _ [IHo IHa]]; simpl.
  - now rewrite Hthrow.
  - destruct (call_handler_has_args b Hb) as [called Hcalled].
    rewrite Hcalled. destruct (dispatch (before ++ fc :: after)) as [later o].
    simpl in *. split; [assumption |].
    rewrite acks_app, (call_handler_acks b called Hcalled). simpl.
    now rewrite IHa.
Qed.

Lemma dispatch_missing_args_not_acknowledged_witness :
  (dispatch
     ([mkFunctionCall (Some "a") (Some "update_slide") None] ++
      mkFunctionCall (Some "b") (Some "create_presentation") None ::
      [mkFunctionCall (Some "c") (Some "no_such_tool") None])).2 = Threw ∧
  acks
    (dispatch
       ([mkFunctionCall (Some "a") (Some "update_slide") None] ++
        mkFunctionCall (Some "b") (Some "create_presentation") None ::
        [mkFunctionCall (Some "c") (Some "no_such_tool") None])).1 =
    (λ fc, (id fc, name fc)) <$>
      [mkFunctionCall (Some "a") (Some "update_slide") None].
Proof.
  apply (dispatch_missing_args_not_acknowledged
           [mkFunctionCall (Some "a") (Some "update_slide") None]
           [mkFunctionCall (Some "c") (Some "no_such_tool") None]
           (mkFunctionCall (Some "b") (Some "create_presentation") None)).
  - constructor; [| constructor]. intros H. discriminate H.
  - reflexivity.
  - reflexivity.
Defined.

End DispatcherFacts.

(** ** The session *)

Module SessionFacts.
Import Session PendingStart.

(** C9 does not hold of the code.  The only guard of [startLive] is the
    status read by the button, and the status can read idle while the
    session holds the microphone and a channel: click to start, click
    again while the microphone request is pending ([stopLive] finds
    nothing to release), then the request is granted and [startLive]
    goes on to take the devices and to open the channel.  A click before
    the channel reports open then runs [startLive] on that session: it
    takes the microphone and two audio contexts again and opens a second
    channel.  The handle of the first channel is overwritten, and a
    later [stopLive] closes one channel of the two. *)
Theorem start_on_live_session (s : session) :
  sessionPromiseRef s = None →
  let stopped := click true (request s) in
  let resumed := resume true stopped.1 in
  let again := click true resumed.1 in
  let closed := stopLive again.1 in
  let trace := stopped.2 ++ resumed.2 ++ again.2 ++ closed.2 in
  connectionStatus resumed.1 = idle ∧
  streamRef resumed.1 = Some (acquired s) ∧
  sessionPromiseRef resumed.1 = Some (acquired s + 3) ∧
  again = startLive true resumed.1 ∧
  filter (λ e, acquires e = true) again.2 =
    [GetUserMedia true; NewAudioContext 16000; NewAudioContext 24000; Connect] ∧
  streamRef again.1 = Some (acquired s + 4) ∧
  sessionPromiseRef again.1 = Some (acquired s + 7) ∧
  length (filter (λ e, opens e = true) trace) = 2 ∧
  length (filter (λ e, closes e = true) trace) = 1.
Proof.
  intros Hnone stopped resumed again closed trace.
  subst trace closed again resumed stopped.
  unfold click, request. simpl. unfold stopLive. simpl.
  rewrite Hnone. simpl.
  repeat (split; [reflexivity || (f_equal; lia) |]).
  destruct (streamRef s), (inputAudioCtxRef s), (outputAudioCtxRef s);
    split; reflexivity.
Qed.

Lemma start_on_live_session_witness :
  let s := mkSession idle None None None None 0 0 in
  let stopped := click true (request s) in
  let resumed := resume true stopped.1 in
  let again := click true resumed.1 in
  let closed := stopLive again.1 in
  let trace := stopped.2 ++ resumed.2 ++ again.2 ++ closed.2 in
  connectionStatus resumed.1 = idle ∧
  streamRef resumed.1 = Some (acquired s) ∧
  sessionPromiseRef resumed.1 = Some (acquired s + 3) ∧
  again = startLive true resumed.1 ∧
  filter (λ e, acquires e = true) again.2 =
    [GetUserMedia true; NewAudioContext 16000; NewAudioContext 24000; Connect] ∧
  streamRef again.1 = Some (acquired s + 4) ∧
  sessionPromiseRef again.1 = Some (acquired s + 7) ∧
  length (filter (λ e, opens e = true) trace) = 2 ∧
  length (filter (λ e, closes e = true) trace) = 1.
Proof.
  intros s.
  apply (start_on_live_session s). reflexivity.
Defined.

End SessionFacts.

(** ** Slide updates *)

Module SlidesFacts.
Import Json Slides.

Lemma array_get_set_eq (a : array) (i : nat) (x : object) :
  array_get (array_set a i x) i = Some x.
Proof.
  unfold array_get, array_set. case_bool_decide as Hi.
  - now rewrite list_lookup_insert_eq.
  - rewrite lookup_app_r by lia.
    rewrite lookup_app_r; rewrite length_replicate; [| lia].
    now rewrite Nat.sub_diag.
Qed.

Lemma array_get_set_ne (a : array) (i j : nat) (x : object) :
  j ≠ i → array_get (array_set a i x) j = array_get a j.
Proof.
  intros Hne. unfold array_get, array_set. case_bool_decide as Hi.
  - now rewrite list_lookup_insert_ne.
  - destruct (decide (j < length a)) as [Hj | Hj].
    + now rewrite lookup_app_l.
    + rewrite (lookup_ge_None_2 a j) by lia.
      rewrite lookup_app_r by lia.
      destruct (decide (j < i)) as [Hlt | Hge].
      * rewrite lookup_app_l by (rewrite length_replicate; lia).
        rewrite lookup_replicate_2 by lia. reflexivity.
      * rewrite lookup_ge_None_2; [reflexivity |].
        rewrite length_app, length_replicate. simpl. lia.
Qed.

(** C10.  An update of the current slide changes the slide at
    [activeSlideIndex] and nothing else: every other index of [slides]
    reads as before, and the id, the title and the sources of the
    presentation are unchanged.  In the updated slide, a field that the
    update does not name keeps its value, and a field that it names takes
    the value given.  The index itself is unchanged and the result is
    what is saved. *)
Theorem handleUpdateCurrentSlide_frame (updates : option object) (a : app) :
  let a' := handleUpdateCurrentSlide updates a in
  let i := activeSlideIndex a in
  p_id (presentation a') = p_id (presentation a) ∧
  p_title (presentation a') = p_title (presentation a) ∧
  sources (presentation a') = sources (presentation a) ∧
  activeSlideIndex a' = i ∧
  saved a' = Some (presentation a') ∧
  (∀ j, j ≠ i →
     array_get (slides (presentation a')) j =
     array_get (slides (presentation a)) j) ∧
  ∃ slide, array_get (slides (presentation a')) i = Some slide ∧
    (∀ k, spread updates !! k = None →
       slide !! k = spread (array_get (slides (presentation a)) i) !! k) ∧
    (∀ k v, spread updates !! k = Some v → slide !! k = Some v).
Proof.
  intros a' i. subst a' i. unfold handleUpdateCurrentSlide. simpl.
  repeat (split; [reflexivity |]).
  split; [intros j Hj; now apply array_get_set_ne |].
  eexists. split; [apply array_get_set_eq |]. split.
  - intros k Hk. rewrite lookup_union_r by assumption. reflexivity.
  - intros k v Hk. now apply lookup_union_Some_l.
Qed.

End SlidesFacts.

(** ** Scenarios

    The codec runs; these are a few inputs and what it makes of them. *)

Module Scenarios.
Import JS Codec.

(** Samples at the ends of the range, out of range, infinite and NaN. *)
Example encode_bytes :
  createPCMBlob_bytes [Fin 1; Fin (-1); Fin (1 # 2); Fin (-3); PosInf; NaN]
  = [255; 127; 0; 128; 255; 63; 0; 128; 255; 127; 0; 0]%Z.
Proof. reflexivity. Qed.

(** Three bytes, mono: one frame, the third byte is dropped. *)
Example decode_three_bytes :
  pcmToAudioBuffer [1; 2; 3]%Z 24000 1
  = Some (mkAudioBuffer 1 1 24000 [[513 # 32768]]).
Proof. reflexivity. Qed.

(** Seven bytes, stereo: one frame per channel, three bytes dropped. *)
Example decode_seven_bytes_stereo :
  pcmToAudioBuffer [1; 2; 3; 4; 5; 255; 7]%Z 24000 2
  = Some (mkAudioBuffer 2 1 24000 [[513 # 32768]; [1027 # 32768]]).
Proof. reflexivity. Qed.

(** Two bytes, stereo: less than a frame. *)
Example decode_half_frame_stereo :
  pcmToAudioBuffer [1; 2]%Z 24000 2 = None.
Proof. reflexivity. Qed.

End Scenarios.

(** * Further properties of the code *)

(** ** The transport encoding *)

Module TransportFacts.
Import JS Codec Transport.

Lemma index_of_char_of (s : Z) :
  (0 <= s < 64)%Z → index_of (char_of s) = Some s.
Proof.
  intros Hs. unfold char_of, index_of.
  repeat match goal with
  | |- context [(?a <? ?b)%Z] => destruct (Z.ltb_spec a b)
  | |- context [(?a =? ?b)%Z] => destruct (Z.eqb_spec a b)
  | |- context [(?a <=? ?b)%Z] => destruct (Z.leb_spec a b)
  end; simpl; try (f_equal; lia); try lia.
Qed.

(** A character of the alphabet is neither white space nor padding. *)
Lemma char_of_plain (s : Z) :
  (0 <= s < 64)%Z → is_whitespace (char_of s) = false ∧ char_of s ≠ 61%Z.
Proof.
  intros Hs. unfold char_of, is_whitespace.
  repeat match goal with
  | |- context [(?a <? ?b)%Z] => destruct (Z.ltb_spec a b)
  | |- context [(?a =? ?b)%Z] => destruct (Z.eqb_spec a b)
  end; simpl; split; try reflexivity; try lia.
Qed.

(** Induction three bytes at a time. *)
Lemma list_ind3 {A} (P : list A → Prop) :
  P [] → (∀ a, P [a]) → (∀ a b, P [a; b]) →
  (∀ a b c rest, P rest → P (a :: b :: c :: rest)) →
  ∀ l, P l.
Proof.
  intros H0 H1 H2 H3.
  assert (∀ l, P l ∧ (∀ a, P (a :: l)) ∧ (∀ a b, P (a :: b :: l))) as H.
  { induction l as [| x l (IH0 & IH1 & IH2)]; [easy |].
    split; [apply IH1 |]. split; [intros a; apply IH2 |].
    intros a b. apply H3, IH0. }
  intros l. apply H.
Qed.

Lemma padding_of_3 (a b c : Z) (rest : list Z) :
  padding_of (a :: b :: c :: rest) = padding_of rest.
Proof.
  unfold padding_of. simpl length.
  replace (S (S (S (length rest)))) with (length rest + 1 * 3) by lia.
  now rewrite Nat.Div0.mod_add.
Qed.

Lemma base64_encode_shape (bytes : list Z) :
  base64_encode bytes =
    (char_of <$> sextets_of bytes) ++ replicate (padding_of bytes) 61%Z.
Proof.
  induction bytes as [| a | a b | a b c rest IH] using list_ind3;
    try reflexivity.
  rewrite padding_of_3. simpl. now rewrite IH.
Qed.

Lemma sextets_of_range (bytes : list Z) :
  Forall is_byte bytes → Forall (λ s, 0 <= s < 64)%Z (sextets_of bytes).
Proof.
  unfold is_byte.
  induction bytes as [| a | a b | a b c rest IH] using list_ind3; intros H.
  - constructor.
  - inversion_clear H as [| ? ? Ha _]. simpl.
    repeat constructor; Z.div_mod_to_equations; lia.
  - inversion_clear H as [| ? ? Ha H']. inversion_clear H' as [| ? ? Hb _].
    simpl. repeat constructor; Z.div_mod_to_equations; lia.
  - inversion_clear H as [| ? ? Ha H']. inversion_clear H' as [| ? ? Hb H].
    inversion_clear H as [| ? ? Hc H']. simpl.
    repeat (constructor; [Z.div_mod_to_equations; lia |]). now apply IH.
Qed.

Lemma sextets_of_length (bytes : list Z) :
  length (sextets_of bytes) mod 4 ≠ 1 ∧
  (length (sextets_of bytes) + padding_of bytes) mod 4 = 0.
Proof.
  induction bytes as [| a | a b | a b c rest [IH1 IH2]] using list_ind3;
    try (split; [discriminate | reflexivity]).
  rewrite padding_of_3. simpl length.
  replace (S (S (S (S (length (sextets_of rest))))))
    with (length (sextets_of rest) + 1 * 4) by lia.
  replace (length (sextets_of rest) + 1 * 4 + padding_of rest)
    with (length (sextets_of rest) + padding_of rest + 1 * 4) by lia.
  now rewrite !Nat.Div0.mod_add.
Qed.

Lemma base64_decode_sextets (bytes : list Z) :
  Forall is_byte bytes → base64_decode (sextets_of bytes) = bytes.
Proof.
  unfold is_byte.
  induction bytes as [| a | a b | a b c rest IH] using list_ind3; intros H.
  - reflexivity.
  - inversion_clear H as [| ? ? Ha _]. simpl. f_equal.
    Z.div_mod_to_equations. lia.
  - inversion_clear H as [| ? ? Ha H']. inversion_clear H' as [| ? ? Hb _].
    simpl. f_equal; [| f_equal]; Z.div_mod_to_equations; lia.
  - inversion_clear H as [| ? ? Ha H']. inversion_clear H' as [| ? ? Hb H].
    inversion_clear H as [| ? ? Hc H']. simpl.
    rewrite (IH H').
    f_equal; [| f_equal; [| f_equal]]; Z.div_mod_to_equations; lia.
Qed.

Lemma drop_equals_snoc (l : list Z) :
  drop_equals (l ++ [61%Z]) = l.
Proof.
  unfold drop_equals. rewrite last_snoc.
  rewrite bool_decide_eq_true_2 by reflexivity.
  rewrite length_app. simpl.
  replace (length l + 1 - 1) with (length l) by lia.
  now rewrite take_app_length.
Qed.

Lemma drop_equals_plain (sextets : list Z) :
  Forall (λ s, 0 <= s < 64)%Z sextets →
  drop_equals (char_of <$> sextets) = char_of <$> sextets.
Proof.
  intros Hs. unfold drop_equals. rewrite bool_decide_eq_false_2; [reflexivity |].
  rewrite fmap_last. intros Hlast.
  destruct (last sextets) as [s |] eqn:E; [| discriminate].
  injection Hlast as Hlast.
  assert (s ∈ sextets) as Hin.
  { rewrite last_lookup in E. apply list_elem_of_lookup. eauto. }
  rewrite Forall_forall in Hs.
  now destruct (char_of_plain s (Hs s Hin)).
Qed.

Lemma strip_padding_encoded (sextets : list Z) (p : nat) :
  Forall (λ s, 0 <= s < 64)%Z sextets → p ≤ 2 →
  strip_padding ((char_of <$> sextets) ++ replicate p 61%Z)
  = char_of <$> sextets.
Proof.
  intros Hs Hp. unfold strip_padding.
  destruct p as [| [| [| p]]]; [| | | lia]; simpl.
  - rewrite app_nil_r. now rewrite !drop_equals_plain.
  - rewrite drop_equals_snoc. now apply drop_equals_plain.
  - change [61%Z; 61%Z] with ([61%Z] ++ [61%Z]).
    rewrite app_assoc. now rewrite !drop_equals_snoc.
Qed.

Lemma mapM_index_of (sextets : list Z) :
  Forall (λ s, 0 <= s < 64)%Z sextets →
  mapM index_of (char_of <$> sextets) = Some sextets.
Proof.
  intros Hs. apply mapM_Some. apply Forall2_fmap_l.
  apply Forall_Forall2_diag. eapply Forall_impl; [exact Hs |].
  intros s. apply index_of_char_of.
Qed.

Lemma padding_of_le (bytes : list Z) : padding_of bytes ≤ 2.
Proof. unfold padding_of. destruct (_ mod 3) as [| [| [| n]]]; lia. Qed.

Lemma filter_all {A} (P : A → Prop) `{∀ x, Decision (P x)} (l : list A) :
  Forall P l → filter P l = l.
Proof.
  induction 1 as [| x l Hx _ IH]; [reflexivity |].
  rewrite filter_cons_True by assumption. now rewrite IH.
Qed.

Lemma atob_base64_encode (bytes : list Z) :
  Forall is_byte bytes → atob (base64_encode bytes) = Some bytes.
Proof.
  intros Hb. pose proof (sextets_of_range bytes Hb) as Hs.
  destruct (sextets_of_length bytes) as [Hne Hlen].
  unfold atob. rewrite base64_encode_shape.
  rewrite filter_all.
  2:{ apply Forall_app. split.
      - apply Forall_fmap. eapply Forall_impl; [exact Hs |].
        intros s Hrange. now destruct (char_of_plain s Hrange).
      - apply Forall_replicate. reflexivity. }
  rewrite length_app, length_fmap, length_replicate.
  rewrite (bool_decide_eq_true_2 _ Hlen).
  rewrite strip_padding_encoded by (assumption || apply padding_of_le).
  rewrite bool_decide_eq_false_2 by now rewrite length_fmap.
  rewrite mapM_index_of by assumption. simpl.
  now rewrite base64_decode_sextets.
Qed.

(** The transport encoding never throws on bytes, and the transport
    decoding gives the bytes back. *)
Lemma transport_round_trip (bytes : list Z) :
  Forall is_byte bytes →
  ∃ text, encodeBase64 bytes = Some text ∧ decodeBase64 text = Some bytes.
Proof.
  intros Hb. unfold encodeBase64, decodeBase64, btoa.
  assert (map fromCharCode bytes = bytes) as ->.
  { induction Hb as [| b bytes Hbyte _ IH]; [reflexivity |].
    simpl. rewrite IH. f_equal. unfold fromCharCode, is_byte in *.
    apply Z.mod_small. lia. }
  assert (forallb (λ c, (c <=? 255)%Z) bytes = true) as ->.
  { apply forallb_forall. intros b Hin. rewrite Forall_forall in Hb.
    apply list_elem_of_In in Hin. specialize (Hb b Hin).
    unfold is_byte in Hb. apply Z.leb_le. lia. }
  eexists. split; [reflexivity |].
  rewrite atob_base64_encode by assumption. simpl. f_equal.
  induction Hb as [| b bytes Hbyte _ IH]; [reflexivity |].
  simpl. rewrite IH. f_equal. unfold ToUint8, is_byte in *.
  apply Z.mod_small. lia.
Qed.

(** X1.  For every byte sequence, [encodeBase64] returns a text (it does
    not throw) and [decodeBase64] of that text returns the same bytes. *)
Theorem decodeBase64_encodeBase64 (bytes : list Z) :
  Forall is_byte bytes →
  ∃ text, encodeBase64 bytes = Some text ∧ decodeBase64 text = Some bytes.
Proof. apply transport_round_trip. Qed.

Lemma decodeBase64_encodeBase64_witness :
  ∃ text, encodeBase64 [0; 255; 128; 7]%Z = Some text ∧
          decodeBase64 text = Some [0; 255; 128; 7]%Z.
Proof.
  apply (decodeBase64_encodeBase64 [0; 255; 128; 7]%Z).
  repeat constructor; unfold is_byte; lia.
Defined.

End TransportFacts.

(** ** More on the codec *)

Module CodecFacts.
Import JS Codec CodecSpec Transport JSFacts EncoderFacts DecoderFacts
  TransportFacts.

Lemma int16_of_bytes_range (lo hi : Z) :
  is_byte lo → is_byte hi → (-32768 <= int16_of_bytes lo hi <= 32767)%Z.
Proof.
  unfold is_byte, int16_of_bytes. intros Hlo Hhi.
  destruct (Z.ltb_spec (lo + 256 * hi) 32768); lia.
Qed.

Lemma createBuffer_zero_channels (len rate : Q) : createBuffer 0 len rate = None.
Proof.
  unfold createBuffer. now rewrite bool_decide_eq_true_2 by (now left).
Qed.

(** The decoder on an input shorter than a frame. *)
Lemma short_input (data : list Z) (rate : Q) (nc : nat) :
  0 < length data → length data < 2 * nc →
  pcmToAudioBuffer data rate nc = None.
Proof.
  intros Hpos Hshort. unfold pcmToAudioBuffer.
  rewrite bool_decide_eq_false_2 by lia.
  unfold createBuffer. rewrite frameCount_truncate by lia.
  unfold full_frames. rewrite Nat.div_small by lia.
  now rewrite bool_decide_eq_true_2 by (now right).
Qed.

Lemma empty_input (rate : Q) (nc : nat) :
  0 < nc →
  pcmToAudioBuffer [] rate nc =
    Some (mkAudioBuffer nc 1 rate (replicate nc [0%Q])).
Proof.
  intros Hnc. unfold pcmToAudioBuffer, createBuffer.
  rewrite bool_decide_eq_true_2 by reflexivity.
  change (Z.to_nat (truncate 1)) with 1.
  now rewrite bool_decide_eq_false_2 by lia.
Qed.

(** In the model of [createBuffer], the decoder throws in exactly two
    situations: the channel count is zero, or the input is not empty but
    shorter than one frame of [2 * numChannels] bytes. *)
Lemma decoder_throws_iff (data : list Z) (rate : Q) (nc : nat) :
  pcmToAudioBuffer data rate nc = None ↔
  nc = 0 ∨ (0 < length data ∧ length data < 2 * nc).
Proof.
  split.
  - intros Hnone. destruct (decide (nc = 0)) as [| Hnc]; [now left |]. right.
    destruct (decide (length data = 0)) as [Hlen | Hlen].
    + apply length_zero_iff_nil in Hlen. subst data.
      rewrite empty_input in Hnone by lia. discriminate.
    + split; [lia |].
      destruct (decide (length data < 2 * nc)) as [| Hge]; [assumption |].
      destruct (pcmToAudioBuffer_full_frames data rate nc) as (? & E & _);
        [lia | lia |].
      rewrite E in Hnone. discriminate.
  - intros [-> | [Hpos Hshort]]; [| now apply short_input].
    unfold pcmToAudioBuffer. case_bool_decide.
    + apply createBuffer_zero_channels.
    + now rewrite createBuffer_zero_channels.
Qed.

(** X2.  As the application calls it (24 kHz, one channel), the decoder
    throws for an input of exactly one byte and for no other input. *)
Theorem pcmToAudioBuffer_throws_iff (data : list Z) :
  pcmToAudioBuffer data 24000 1 = None ↔ length data = 1.
Proof. rewrite decoder_throws_iff. lia. Qed.

(** X3.  As the application calls it, the decoder turns an input of at
    least two bytes into a buffer of one channel with one frame per
    complete pair of bytes; sample [i] is the signed little-endian
    integer made of bytes [2i] and [2i+1], divided by 32768.  A last
    odd byte is dropped. *)
Theorem pcmToAudioBuffer_mono (data : list Z) :
  2 ≤ length data → Forall is_byte data →
  ∃ cd,
    pcmToAudioBuffer data 24000 1 =
      Some (mkAudioBuffer 1 (length data / 2) 24000 [cd]) ∧
    length cd = length data / 2 ∧
    ∀ i, i < length data / 2 →
      ∃ lo hi, data !! (2 * i) = Some lo ∧ data !! (2 * i + 1) = Some hi ∧
               cd !! i = Some (decode_sample lo hi).
Proof.
  intros Hlen Hbytes.
  destruct (pcmToAudioBuffer_full_frames data 24000 1)
    as (chans & Hrun & Hchans & Hget); [lia | lia |].
  change (full_frames (length data) 1) with (length data / 2) in *.
  destruct (Hget 0) as (cd & Hcd & Hcdlen & Hsample); [lia |].
  destruct chans as [| cd' [| ? ?]]; try discriminate Hchans.
  injection Hcd as ->. exists cd. split; [exact Hrun |].
  split; [exact Hcdlen |]. intros i Hi.
  pose proof (full_frame_in_bounds (length data) 1 0 i) as Hin.
  change (full_frames (length data) 1) with (length data / 2) in Hin.
  replace ((i * 1 + 0) * 2) with (2 * i) in Hin by lia.
  destruct (lookup_lt_is_Some_2 data (2 * i)) as [lo Hlo]; [lia |].
  destruct (lookup_lt_is_Some_2 data (2 * i + 1)) as [hi Hhi]; [lia |].
  exists lo, hi. split; [exact Hlo |]. split; [exact Hhi |].
  rewrite Hsample by assumption. unfold stored.
  replace ((i * 1 + 0) * 2) with (2 * i) by lia.
  rewrite (getInt16_spec data _ lo hi Hlo Hhi); [reflexivity |].
  rewrite Forall_forall in Hbytes. apply Hbytes, list_elem_of_lookup. eauto.
Qed.

Lemma pcmToAudioBuffer_mono_witness :
  ∃ cd,
    pcmToAudioBuffer [1; 2; 3; 255; 9]%Z 24000 1 =
      Some (mkAudioBuffer 1 (length [1; 2; 3; 255; 9]%Z / 2) 24000 [cd]) ∧
    length cd = length [1; 2; 3; 255; 9]%Z / 2 ∧
    ∀ i, i < length [1; 2; 3; 255; 9]%Z / 2 →
      ∃ lo hi, [1; 2; 3; 255; 9]%Z !! (2 * i) = Some lo ∧
               [1; 2; 3; 255; 9]%Z !! (2 * i + 1) = Some hi ∧
               cd !! i = Some (decode_sample lo hi).
Proof.
  apply (pcmToAudioBuffer_mono [1; 2; 3; 255; 9]%Z).
  - simpl. lia.
  - repeat constructor; unfold is_byte; lia.
Defined.

(** X4.  Every sample of a decoded buffer lies in [-1, 32767/32768]:
    the decoder never produces a value outside the range of the audio
    device, whatever the bytes. *)
Theorem decoded_samples_in_range
    (data : list Z) (rate : Q) (nc : nat) (b : AudioBuffer)
    (cd : list Q) (x : Q) :
  Forall is_byte data →
  pcmToAudioBuffer data rate nc = Some b →
  cd ∈ channels b → x ∈ cd →
  (-1 <= x)%Q ∧ (x <= 32767 # 32768)%Q.
Proof.
  intros Hbytes Hrun Hcd Hx.
  destruct (decide (nc = 0)) as [-> | Hnc].
  { unfold pcmToAudioBuffer in Hrun. case_bool_decide;
      rewrite createBuffer_zero_channels in Hrun; discriminate. }
  destruct (decide (length data = 0)) as [Hlen | Hlen].
  { apply length_zero_iff_nil in Hlen. subst data.
    rewrite empty_input in Hrun by lia. injection Hrun as <-. simpl in Hcd.
    apply elem_of_replicate in Hcd as [-> _].
    apply list_elem_of_singleton in Hx as ->. split; [lra | ].
    unfold Qle. simpl. lia. }
  destruct (decide (length data < 2 * nc)) as [Hshort | Hfull].
  { rewrite short_input in Hrun by lia. discriminate. }
  destruct (pcmToAudioBuffer_full_frames data rate nc)
    as (chans & E & Hchans & Hget); [lia | lia |].
  rewrite E in Hrun. injection Hrun as <-. simpl in Hcd.
  apply list_elem_of_lookup in Hcd as [c Hc].
  pose proof (lookup_lt_Some _ _ _ Hc) as Hclt. rewrite Hchans in Hclt.
  destruct (Hget c Hclt) as (cd' & Hc' & Hcdlen & Hsample).
  rewrite Hc in Hc'. injection Hc' as <-.
  apply list_elem_of_lookup in Hx as [i Hi].
  pose proof (lookup_lt_Some _ _ _ Hi) as Hilt. rewrite Hcdlen in Hilt.
  rewrite Hsample in Hi by assumption.
  pose proof (full_frame_in_bounds (length data) nc c i Hclt Hilt) as Hin.
  destruct (lookup_lt_is_Some_2 data ((i * nc + c) * 2)) as [lo Hlo]; [lia |].
  destruct (lookup_lt_is_Some_2 data ((i * nc + c) * 2 + 1)) as [hi Hhi];
    [lia |].
  rewrite Forall_forall in Hbytes.
  assert (is_byte lo) as Hblo
    by (apply Hbytes, list_elem_of_lookup; eauto).
  assert (is_byte hi) as Hbhi
    by (apply Hbytes, list_elem_of_lookup; eauto).
  unfold stored in Hi.
  rewrite (getInt16_spec data _ lo hi Hlo Hhi Hblo) in Hi.
  simpl in Hi. injection Hi as <-.
  pose proof (int16_of_bytes_range lo hi Hblo Hbhi) as [Hmin Hmax].
  rewrite Zle_Qle in Hmin, Hmax.
  change (inject_Z (-32768)) with (-32768 # 1)%Q in Hmin.
  change (inject_Z 32767) with (32767 # 1)%Q in Hmax.
  unfold Qdiv. change (/ 32768)%Q with (1 # 32768)%Q.
  split; lra.
Qed.

Lemma decoded_samples_in_range_witness :
  (-1 <= 513 # 32768)%Q ∧ (513 # 32768 <= 32767 # 32768)%Q.
Proof.
  apply (decoded_samples_in_range [1; 2; 3]%Z 24000 1
           (mkAudioBuffer 1 1 24000 [[513 # 32768]]) [513 # 32768]
           (513 # 32768)).
  - repeat constructor; unfold is_byte; lia.
  - reflexivity.
  - simpl. apply list_elem_of_singleton. reflexivity.
  - apply list_elem_of_singleton. reflexivity.
Defined.

Lemma createPCMBlob_bytes_are_bytes (data : list number) :
  Forall is_byte (createPCMBlob_bytes data).
Proof.
  unfold createPCMBlob_bytes. induction (createPCMBlob_int16 data) as [| v l IH].
  - constructor.
  - change (flat_map int16_bytes (v :: l))
      with (int16_bytes v ++ flat_map int16_bytes l).
    apply Forall_app. split; [| exact IH].
    apply Forall_forall. intros b Hb. now apply (int16_bytes_byte v).
Qed.

(** What the decoder reads at a sample position of the encoder's bytes. *)
Lemma stored_encoded (data : list number) (i : nat) (d : number) :
  data !! i = Some d →
  stored (createPCMBlob_bytes data) 1 0 i
  = Some (inject_Z (pcm_sample d) / 32768)%Q.
Proof.
  intros Hd.
  pose proof (createPCMBlob_int16_lookup data i d Hd) as Hv.
  destruct (flat_map_pairs_lookup _ _ _ Hv) as [Hb0 Hb1].
  fold (createPCMBlob_bytes data) in Hb0, Hb1.
  unfold stored. replace ((i * 1 + 0) * 2) with (2 * i) by lia.
  rewrite (getInt16_spec _ _ _ _ Hb0 Hb1).
  2:{ apply (int16_bytes_byte (pcm_sample d)). left. }
  rewrite int16_of_bytes_little_endian by apply pcm_sample_range.
  reflexivity.
Qed.

(** X5.  The whole way from the microphone samples to a decoded buffer:
    [createPCMBlob] returns a text, and decoding that text with
    [decodeBase64] and [pcmToAudioBuffer] (24 kHz, mono) gives a buffer with one
    frame per sample whose samples are exactly the stored 16-bit values
    divided by 32768.  Nothing is lost between the [Int16Array] of the
    encoder and the buffer of the decoder. *)
Theorem createPCMBlob_decoded (data : list number) :
  data ≠ [] →
  ∃ text,
    createPCMBlob data = Some text ∧
    (decodeBase64 text ≫= λ bytes, pcmToAudioBuffer bytes 24000 1) =
      Some (mkAudioBuffer 1 (length data) 24000
              [(λ d, inject_Z (pcm_sample d) / 32768)%Q <$> data]).
Proof.
  intros Hne.
  destruct (transport_round_trip (createPCMBlob_bytes data)
              (createPCMBlob_bytes_are_bytes data)) as (text & Henc & Hdec).
  exists text. split; [exact Henc |]. rewrite Hdec. simpl.
  pose proof (createPCMBlob_bytes_length data) as Hlen.
  assert (0 < length data) as Hpos by (destruct data; [congruence | simpl; lia]).
  destruct (pcmToAudioBuffer_full_frames (createPCMBlob_bytes data) 24000 1)
    as (chans & Hrun & Hchans & Hget); [lia | lia |].
  assert (full_frames (length (createPCMBlob_bytes data)) 1 = length data)
    as Hframes.
  { unfold full_frames. rewrite Hlen. change (2 * 1) with 2.
    rewrite Nat.mul_comm. apply Nat.div_mul. lia. }
  rewrite Hframes in *. rewrite Hrun. do 2 f_equal.
  destruct (Hget 0) as (cd & Hcd & Hcdlen & Hsample); [lia |].
  destruct chans as [| cd' [| ? ?]]; try discriminate Hchans.
  injection Hcd as ->. f_equal.
  apply list_eq. intros i. rewrite list_lookup_fmap.
  destruct (decide (i < length data)) as [Hi | Hi].
  - rewrite Hsample by assumption.
    destruct (lookup_lt_is_Some_2 data i Hi) as [d Hd].
    rewrite Hd. simpl. now apply stored_encoded.
  - rewrite (lookup_ge_None_2 cd) by lia.
    now rewrite (lookup_ge_None_2 data) by lia.
Qed.

Lemma createPCMBlob_decoded_witness :
  ∃ text,
    createPCMBlob [Fin (1 # 2); NaN; Fin (-3)] = Some text ∧
    (decodeBase64 text ≫= λ bytes, pcmToAudioBuffer bytes 24000 1) =
      Some (mkAudioBuffer 1 (length [Fin (1 # 2); NaN; Fin (-3)]) 24000
              [(λ d, inject_Z (pcm_sample d) / 32768)%Q <$>
                 [Fin (1 # 2); NaN; Fin (-3)]]).
Proof.
  apply (createPCMBlob_decoded [Fin (1 # 2); NaN; Fin (-3)]).
  discriminate.
Defined.

Lemma quantize_proper (x y : Q) : (x == y)%Q → quantize x = quantize y.
Proof.
  intros E. unfold quantize, round_toward_zero.
  rewrite <- !truncate_quot. apply truncate_proper, scale_proper, E.
Qed.

Lemma quantize_truncate (c : Q) : quantize c = truncate (scale c).
Proof. unfold quantize, round_toward_zero. now rewrite truncate_quot. Qed.

Lemma clampQ_mono (s t : Q) : (s <= t)%Q → (clampQ s <= clampQ t)%Q.
Proof.
  intros H. unfold clampQ.
  case_Qltb s (-1)%Q; case_Qltb t (-1)%Q; try lra;
    case_Qltb 1%Q t; try lra; case_Qltb 1%Q s; lra.
Qed.

Lemma clampQ_range (s : Q) : (-1 <= clampQ s)%Q ∧ (clampQ s <= 1)%Q.
Proof.
  unfold clampQ. case_Qltb s (-1)%Q; [split; lra |].
  case_Qltb 1%Q s; split; lra.
Qed.

Lemma truncate_scale_mono (c1 c2 : Q) :
  (c1 <= c2)%Q → (truncate (scale c1) <= truncate (scale c2))%Z.
Proof.
  intros H. unfold scale.
  case_Qltb c1 0%Q; case_Qltb c2 0%Q; try lra.
  - unfold truncate.
    rewrite (proj2 (Qltb_lt (c1 * 32768) 0)) by lra.
    rewrite (proj2 (Qltb_lt (c2 * 32768) 0)) by lra.
    apply Qceiling_resp_le. lra.
  - destruct (truncate_neg (c1 * 32768)) as [_ H1]; [lra |].
    destruct (truncate_nonneg (c2 * 32767)) as [_ H2]; [lra |].
    assert (truncate (c1 * 32768) < 1)%Z
      by (apply inject_Z_lt_inv; change (inject_Z 1) with 1%Q; lra).
    assert (-1 < truncate (c2 * 32767))%Z
      by (apply inject_Z_lt_inv; change (inject_Z (-1)) with (-1 # 1)%Q; lra).
    lia.
  - unfold truncate.
    rewrite (proj2 (Qltb_ge (c1 * 32767) 0)) by lra.
    rewrite (proj2 (Qltb_ge (c2 * 32767) 0)) by lra.
    apply Qfloor_resp_le. lra.
Qed.

(** X6.  The encoder is monotone: a larger sample is never stored as a
    smaller 16-bit value, inside or outside [-1, 1]. *)
Theorem pcm_sample_monotone (s t : Q) :
  (s <= t)%Q → (pcm_sample (Fin s) <= pcm_sample (Fin t))%Z.
Proof.
  intros H.
  rewrite (pcm_sample_quantize (Fin s) (clampQ s)) by reflexivity.
  rewrite (pcm_sample_quantize (Fin t) (clampQ t)) by reflexivity.
  rewrite !quantize_truncate. now apply truncate_scale_mono, clampQ_mono.
Qed.

Lemma pcm_sample_monotone_witness :
  (pcm_sample (Fin (1 # 3)) <= pcm_sample (Fin (7 # 2)))%Z.
Proof.
  apply (pcm_sample_monotone (1 # 3) (7 # 2)). unfold Qle. simpl. lia.
Defined.

(** X7.  Saturation: every sample at or above 1, and the positive
    infinity, is stored as 32767; every sample at or below -1, and the
    negative infinity, as -32768. *)
Theorem pcm_sample_saturates (s : Q) :
  ((1 <= s)%Q → pcm_sample (Fin s) = 32767%Z) ∧
  ((s <= -1)%Q → pcm_sample (Fin s) = (-32768)%Z) ∧
  pcm_sample PosInf = 32767%Z ∧ pcm_sample NegInf = (-32768)%Z.
Proof.
  split; [| split; [| split; reflexivity]]; intros H;
    rewrite (pcm_sample_quantize (Fin s) (clampQ s)) by reflexivity.
  - rewrite (quantize_proper (clampQ s) 1); [reflexivity |].
    unfold clampQ. case_Qltb s (-1)%Q; [lra |]. case_Qltb 1%Q s; lra.
  - rewrite (quantize_proper (clampQ s) (-1)); [reflexivity |].
    unfold clampQ. case_Qltb s (-1)%Q; [lra |]. case_Qltb 1%Q s; lra.
Qed.

Lemma truncate_inject_Z (v : Z) : truncate (inject_Z v) = v.
Proof.
  unfold truncate. destruct (Qltb (inject_Z v) 0); [| apply Qfloor_Z].
  unfold Qceiling. change (- inject_Z v)%Q with (inject_Z (- v)).
  rewrite Qfloor_Z. lia.
Qed.

(** X8.  Encoding a decoded sample again does not give the value back
    for positive values: a 16-bit value [v], decoded to [v / 32768] and
    encoded again, comes out as [v - 1] when [v > 0] and as [v] when
    [v <= 0].  Each pass through decoder and encoder lowers the positive
    samples by one step. *)
Theorem pcm_sample_of_decoded (v : Z) :
  (-32768 <= v <= 32767)%Z →
  pcm_sample (Fin (inject_Z v / 32768)) = if (0 <? v)%Z then (v - 1)%Z else v.
Proof.
  intros [Hmin Hmax].
  pose proof Hmin as Hqmin. pose proof Hmax as Hqmax.
  rewrite Zle_Qle in Hqmin, Hqmax.
  change (inject_Z (-32768)) with (-32768 # 1)%Q in Hqmin.
  change (inject_Z 32767) with (32767 # 1)%Q in Hqmax.
  set (s := (inject_Z v / 32768)%Q).
  assert (s == inject_Z v * (1 # 32768))%Q as Hs by reflexivity.
  rewrite (pcm_sample_quantize (Fin s) (clampQ s)) by reflexivity.
  rewrite (quantize_proper (clampQ s) s).
  2:{ unfold clampQ. case_Qltb s (-1)%Q; [lra |]. case_Qltb 1%Q s; lra. }
  rewrite quantize_truncate. unfold scale.
  destruct (Z.ltb_spec 0 v) as [Hpos | Hneg].
  - assert (0 < inject_Z v)%Q as Hqpos
      by (change 0%Q with (inject_Z 0); now rewrite <- Zlt_Qlt).
    case_Qltb s 0%Q; [lra |].
    destruct (truncate_nonneg (s * 32767)) as [H1 H2]; [lra |].
    set (t := truncate (s * 32767)) in *.
    assert (t < v)%Z by (apply inject_Z_lt_inv; lra).
    assert (v < t + 2)%Z.
    { apply inject_Z_lt_inv. rewrite inject_Z_plus.
      change (inject_Z 2) with 2%Q. lra. }
    lia.
  - assert (inject_Z v <= 0)%Q as Hqneg
      by (change 0%Q with (inject_Z 0); now rewrite <- Zle_Qle).
    case_Qltb s 0%Q.
    + rewrite (truncate_proper (s * 32768) (inject_Z v)) by lra.
      apply truncate_inject_Z.
    + assert (v = 0%Z) as ->.
      { apply Z.le_antisymm; [assumption |]. apply inject_Z_le_inv.
        change (inject_Z 0) with 0%Q. lra. }
      reflexivity.
Qed.

Lemma pcm_sample_of_decoded_witness :
  pcm_sample (Fin (inject_Z 1000 / 32768)) =
    if (0 <? 1000)%Z then (1000 - 1)%Z else 1000%Z.
Proof. apply (pcm_sample_of_decoded 1000). lia. Defined.

End CodecFacts.

(** ** More on the playback scheduler *)

Module SchedulerExtras.
Import JS JSFacts Scheduler SchedulerRuns SchedulerFacts.

(** X9.  No fragment is scheduled in the past, and none before the
    cursor: whatever the state, the source made by [enqueue] starts at a
    time that is at least [now] and at least the cursor. *)
Theorem enqueue_never_in_the_past (now dur : Q) (p : playback) :
  ∃ sch,
    started (enqueue now dur p) = started p ++ [sch] ∧
    (now <= start_time sch)%Q ∧
    (nextStartTime p <= start_time sch)%Q.
Proof.
  eexists. split; [apply enqueue_started |]. simpl. unfold min_lead.
  case_Qltb (nextStartTime p) now; split; lra.
Qed.

(** X11.  Without an interruption, and with fragments of non-negative
    duration, the cursor never moves back. *)
Theorem cursor_never_moves_back (p : playback) (es : list event) :
  Forall forward es →
  (nextStartTime p <= nextStartTime (run p es))%Q.
Proof.
  intros Hes. revert p.
  induction Hes as [| e es He _ IH]; intros p; [apply Qle_refl |].
  change (run p (e :: es)) with (run (step p e) es).
  apply Qle_trans with (nextStartTime (step p e)); [| apply IH].
  destruct e as [now dur | | source]; simpl in *; [| contradiction | lra].
  pose proof (enqueue_start_after_cursor now (nextStartTime p)). lra.
Qed.

Lemma cursor_never_moves_back_witness :
  (nextStartTime initial <=
   nextStartTime (run initial [Fragment 1 (1 # 2); Ended 0;
                               Fragment (1 # 10) (3 # 10)]))%Q.
Proof.
  apply (cursor_never_moves_back initial
           [Fragment 1 (1 # 2); Ended 0; Fragment (1 # 10) (3 # 10)]).
  repeat constructor; simpl; unfold Qle; simpl; lia.
Defined.

Lemma tidy_step (p : playback) (e : event) : tidy p → tidy (step p e).
Proof.
  intros (Hnd & Hfly & Hst).
  destruct e as [now dur | | source]; unfold tidy; simpl.
  - split; [exact Hnd |]. split.
    + intros n Hn. apply elem_of_union in Hn as [Hn | Hn].
      * apply elem_of_singleton in Hn as ->. split; [lia |].
        intros Hin. apply Hst in Hin. lia.
      * destruct (Hfly n Hn). split; [lia | assumption].
    + intros n Hn. apply Hst in Hn. lia.
  - split; [| split].
    + apply NoDup_app. split; [exact Hnd |]. split.
      * intros n Hn Hel. apply elem_of_elements in Hel.
        now destruct (Hfly n Hel).
      * apply NoDup_elements.
    + intros n Hn. now apply not_elem_of_empty in Hn.
    + intros n Hn. apply elem_of_app in Hn as [Hn | Hn]; [now apply Hst |].
      apply elem_of_elements in Hn. now destruct (Hfly n Hn).
  - split; [exact Hnd |]. split; [| exact Hst].
    intros n Hn. apply elem_of_difference in Hn as [Hn _]. now apply Hfly.
Qed.

Lemma tidy_run (p : playback) (es : list event) : tidy p → tidy (run p es).
Proof.
  revert p. induction es as [| e es IH]; intros p Hp; [exact Hp |].
  apply (IH (step p e)), tidy_step, Hp.
Qed.

(** X12.  From the start of a session, whatever the order of fragments,
    interruptions and completion callbacks: no source is stopped twice,
    and a source in flight has not been stopped. *)
Theorem sources_stopped_once (es : list event) :
  NoDup (stopped (run initial es)) ∧
  ∀ n, n ∈ audioSources (run initial es) → n ∉ stopped (run initial es).
Proof.
  destruct (tidy_run initial es) as (Hnd & Hfly & _).
  - split; [constructor |]. split; intros n Hn.
    + now apply not_elem_of_empty in Hn.
    + now apply elem_of_nil in Hn.
  - split; [exact Hnd |]. intros n Hn. now destruct (Hfly n Hn).
Qed.

End SchedulerExtras.

(** ** The message handler *)

Module HandlerFacts.
Import JS Codec CodecSpec Transport Scheduler Json Dispatcher Handler.
Import JSFacts DecoderFacts CodecFacts SchedulerFacts DispatcherFacts.

Lemma dispatch_throws (before after : list FunctionCall) (fc : FunctionCall) :
  Forall has_args before →
  name fc = Some "create_presentation" → args fc = None →
  (dispatch (before ++ fc :: after)).2 = Threw.
Proof.
  intros Hbefore Hname Hargs.
  induction Hbefore as [| b before Hb _ IH]; simpl.
  - unfold call_handler. rewrite bool_decide_eq_true_2 by assumption.
    now rewrite Hargs.
  - destruct (call_handler_has_args b Hb) as [called ->].
    now destruct (dispatch (before ++ fc :: after)).
Qed.

(** X13.  When the tool-call branch throws (a [create_presentation] call
    without arguments), the handler ends there: the audio parts of the
    same message are not played and an interruption in it is not
    processed.  The playback state is what it was before the message. *)
Theorem throwing_tool_call_skips_audio
    (m : LiveServerMessage) (st : state)
    (before after : list FunctionCall) (fc : FunctionCall) :
  toolCall m = Some (Some (before ++ fc :: after)) →
  Forall has_args before →
  name fc = Some "create_presentation" → args fc = None →
  (onmessage m st).2 = Threw ∧ player (onmessage m st).1 = player st.
Proof.
  intros Hm Hbefore Hname Hargs. unfold onmessage. rewrite Hm. simpl.
  pose proof (dispatch_throws before after fc Hbefore Hname Hargs) as Hthrow.
  destruct (dispatch (before ++ fc :: after)) as [called o].
  simpl in Hthrow. subst o. split; reflexivity.
Qed.

Lemma throwing_tool_call_skips_audio_witness :
  let m :=
    mkMessage
      (Some (mkServerContent None None
               (Some [mkPart (Some (of_string "AAAA")) 1]) true))
      (Some (Some ([] ++
                   mkFunctionCall (Some "b") (Some "create_presentation") None
                   :: []))) in
  let st := mkState "" (enqueue 0 1 initial) [] in
  (onmessage m st).2 = Threw ∧ player (onmessage m st).1 = player st.
Proof.
  intros m st.
  apply (throwing_tool_call_skips_audio m st [] []
           (mkFunctionCall (Some "b") (Some "create_presentation") None)).
  - reflexivity.
  - constructor.
  - reflexivity.
  - reflexivity.
Defined.

(** What the loop over the parts does to the playback state: it only
    starts sources, each of which is then in flight. *)
Lemma play_parts_started (ps : list Part) (p : playback) :
  ∃ l, started (play_parts ps p).1 = started p ++ l ∧
       stopped (play_parts ps p).1 = stopped p ∧
       (∀ n, n ∈ audioSources p → n ∈ audioSources (play_parts ps p).1) ∧
       ∀ sch, sch ∈ l → node sch ∈ audioSources (play_parts ps p).1.
Proof.
  revert p. induction ps as [| part ps IH]; intros p; simpl.
  - exists []. rewrite app_nil_r. repeat split; try done.
    intros sch Hsch. now apply elem_of_nil in Hsch.
  - destruct (play_part p part) as [p' |] eqn:Hpart.
    2:{ exists []. rewrite app_nil_r. repeat split; try done.
        intros sch Hsch. now apply elem_of_nil in Hsch. }
    destruct (IH p') as (l & Hl & Hst & Hkeep & Hfly).
    unfold play_part in Hpart.
    destruct (data part) as [[| c base64] |].
    + injection Hpart as <-. exists l. repeat split; assumption.
    + destruct (decodeBase64 (c :: base64)) as [bytes |]; [| discriminate].
      simpl in Hpart.
      destruct (pcmToAudioBuffer bytes 24000 1) as [buf |]; [| discriminate].
      injection Hpart as <-.
      eexists. rewrite Hl, Hst, enqueue_started, <- app_assoc.
      split; [reflexivity |]. split; [reflexivity |]. split.
      * intros n Hn. apply Hkeep. simpl. apply elem_of_union. now right.
      * intros sch Hsch. apply elem_of_app in Hsch as [Hsch | Hsch];
          [| now apply Hfly].
        apply list_elem_of_singleton in Hsch as ->. simpl.
        apply Hkeep. simpl. apply elem_of_union. left.
        now apply elem_of_singleton.
    + injection Hpart as <-. exists l. repeat split; assumption.
Qed.

(** X14.  A message that carries audio parts and the interruption flag:
    the parts are scheduled first and the interruption is processed
    last, so every source the message started is stopped at once, no
    source is left in flight, and the cursor is back at zero. *)
Theorem interrupted_message_stops_its_own_audio
    (m : LiveServerMessage) (sc : ServerContent) (st st' : state) :
  serverContent m = Some sc → interrupted sc = true →
  onmessage m st = (st', Completed) →
  audioSources (player st') = ∅ ∧
  nextStartTime (player st') = 0%Q ∧
  ∃ l, started (player st') = started (player st) ++ l ∧
       ∀ sch, sch ∈ l → node sch ∈ stopped (player st').
Proof.
  intros Hsc Hint. unfold onmessage. rewrite Hsc. simpl. rewrite Hint.
  destruct (on_toolCall (toolCall m)) as [called [|]]; [| discriminate].
  destruct (parts sc) as [ps |].
  - destruct (play_parts_started ps (player st)) as (l & Hl & _ & _ & Hfly).
    destruct (play_parts ps (player st)) as [p [|]]; [| discriminate].
    intros [= <-]. simpl in *. split; [reflexivity |].
    split; [reflexivity |]. exists l. split; [assumption |].
    intros sch Hsch. apply elem_of_app. right.
    apply elem_of_elements. now apply Hfly.
  - intros [= <-]. simpl. split; [reflexivity |]. split; [reflexivity |].
    exists []. rewrite app_nil_r. split; [reflexivity |].
    intros sch Hsch. now apply elem_of_nil in Hsch.
Qed.

Lemma interrupted_message_stops_its_own_audio_witness :
  let sc := mkServerContent None None
              (Some [mkPart (Some (of_string "AAAA")) 1]) true in
  let m := mkMessage (Some sc) None in
  let st := mkState "" initial [] in
  audioSources (player (onmessage m st).1) = ∅ ∧
  nextStartTime (player (onmessage m st).1) = 0%Q ∧
  ∃ l, started (player (onmessage m st).1) = started (player st) ++ l ∧
       ∀ sch, sch ∈ l → node sch ∈ stopped (player (onmessage m st).1).
Proof.
  intros sc m st.
  apply (interrupted_message_stops_its_own_audio m sc st (onmessage m st).1).
  - reflexivity.
  - reflexivity.
  - vm_compute. reflexivity.
Defined.

Lemma play_part_undecodable (p : playback) (part : Part) :
  undecodable part → play_part p part = None.
Proof.
  intros (c & base64 & Hdata & Hfail). unfold play_part. rewrite Hdata.
  destruct (decodeBase64 (c :: base64)) as [bytes |]; [| reflexivity].
  simpl in *. now rewrite Hfail.
Qed.

Lemma play_parts_app (before rest : list Part) (p p1 : playback) :
  play_parts before p = (p1, Completed) →
  play_parts (before ++ rest) p = play_parts rest p1.
Proof.
  revert p. induction before as [| part before IH]; intros p; simpl.
  - now intros [= ->].
  - destruct (play_part p part) as [p' |]; [apply IH | discriminate].
Qed.

(** X15.  A part that cannot be decoded ends the handler: the parts
    before it have been scheduled, the parts after it never are, and an
    interruption carried by the same message is not processed. *)
Theorem undecodable_part_ends_message
    (m : LiveServerMessage) (sc : ServerContent) (st : state)
    (before after : list Part) (bad : Part) (p1 : playback) :
  serverContent m = Some sc →
  parts sc = Some (before ++ bad :: after) →
  (on_toolCall (toolCall m)).2 = Completed →
  play_parts before (player st) = (p1, Completed) →
  undecodable bad →
  (onmessage m st).2 = Threw ∧ player (onmessage m st).1 = p1.
Proof.
  intros Hsc Hparts Htool Hbefore Hbad. unfold onmessage.
  destruct (on_toolCall (toolCall m)) as [called o]. simpl in Htool. subst o.
  rewrite Hsc. simpl. rewrite Hparts.
  rewrite (play_parts_app before (bad :: after) _ p1 Hbefore). simpl.
  rewrite (play_part_undecodable p1 bad Hbad). split; reflexivity.
Qed.

Lemma undecodable_part_ends_message_witness :
  let good := mkPart (Some (of_string "AAAA")) 1 in
  let bad := mkPart (Some (of_string "AA==")) 1 in
  let sc := mkServerContent None None (Some ([good] ++ bad :: [good])) true in
  let m := mkMessage (Some sc) None in
  let st := mkState "" initial [] in
  (onmessage m st).2 = Threw ∧
  player (onmessage m st).1 = (play_parts [good] initial).1.
Proof.
  intros good bad sc m st.
  apply (undecodable_part_ends_message m sc st [good] [good] bad
           (play_parts [good] initial).1).
  - reflexivity.
  - reflexivity.
  - reflexivity.
  - vm_compute. reflexivity.
  - exists 65%Z, (of_string "A=="). split; [reflexivity |].
    vm_compute. reflexivity.
Defined.



End HandlerFacts.

(** ** The capture path *)

Module CaptureFacts.
Import JS Codec Transport Capture TransportFacts CodecFacts.

Lemma createPCMBlob_total (data : list number) : is_Some (createPCMBlob data).
Proof.
  destruct (transport_round_trip (createPCMBlob_bytes data)
              (createPCMBlob_bytes_are_bytes data)) as (text & Henc & _).
  unfold createPCMBlob. rewrite Henc. eauto.
Qed.

Lemma run_closed (c : capture) (es : list event) :
  onaudioprocess c = false → Forall (λ e, is_open e = false) es →
  run c es = c.
Proof.
  intros Hc Hes. induction Hes as [| e es He _ IH]; [reflexivity |].
  destruct e; [discriminate He |].
  unfold run in *. simpl. now rewrite Hc.
Qed.

Lemma run_open (c : capture) (es : list event) :
  onaudioprocess c = true →
  ∃ texts,
    mapM createPCMBlob (frames_of es) = Some texts ∧
    sent (run c es) = sent c ++ ((λ t, (t, "audio/pcm;rate=16000")) <$> texts).
Proof.
  revert c. induction es as [| e es IH]; intros c Hc.
  - exists []. split; [reflexivity |]. simpl. now rewrite app_nil_r.
  - destruct e as [| f].
    + destruct (IH (mkCapture true (sent c)) eq_refl) as (texts & Hm & Hs).
      exists texts. split; [exact Hm |]. exact Hs.
    + destruct (createPCMBlob_total f) as [t Ht].
      destruct (IH (mkCapture true (sent c ++ [(t, "audio/pcm;rate=16000")]))
                  eq_refl) as (texts & Hm & Hs).
      exists (t :: texts). split.
      * change (frames_of (AudioProcess f :: es)) with (f :: frames_of es).
        simpl. rewrite Ht. simpl. now rewrite Hm.
      * unfold run in *. simpl. rewrite Hc, Ht. rewrite Hs. simpl.
        now rewrite <- app_assoc.
Qed.

(** X17.  Frames delivered before the channel opens are not sent.  From
    the opening on, every frame is sent, once and in the order of
    capture, as the text [createPCMBlob] makes of it, with the MIME type
    of 16 kHz PCM. *)
Theorem frames_sent_after_open (c : capture) (before after : list event) :
  onaudioprocess c = false →
  Forall (λ e, is_open e = false) before →
  ∃ texts,
    mapM createPCMBlob (frames_of after) = Some texts ∧
    sent (run c (before ++ Open :: after)) =
      sent c ++ ((λ t, (t, "audio/pcm;rate=16000")) <$> texts).
Proof.
  intros Hc Hbefore.
  assert (run c (before ++ Open :: after) =
          run (mkCapture true (sent c)) after) as ->.
  { unfold run. rewrite foldl_app. fold (run c before).
    now rewrite (run_closed c before Hc Hbefore). }
  apply (run_open (mkCapture true (sent c)) after eq_refl).
Qed.

Lemma frames_sent_after_open_witness :
  ∃ texts,
    mapM createPCMBlob
      (frames_of [AudioProcess [Fin (1 # 2)]; Open; AudioProcess [NaN]])
      = Some texts ∧
    sent (run (mkCapture false [])
            ([AudioProcess [Fin 1]; AudioProcess []] ++
             Open :: [AudioProcess [Fin (1 # 2)]; Open; AudioProcess [NaN]])) =
      sent (mkCapture false []) ++
      ((λ t, (t, "audio/pcm;rate=16000")) <$> texts).
Proof.
  apply (frames_sent_after_open (mkCapture false [])
           [AudioProcess [Fin 1]; AudioProcess []]
           [AudioProcess [Fin (1 # 2)]; Open; AudioProcess [NaN]]).
  - reflexivity.
  - repeat constructor.
Defined.

End CaptureFacts.

(** ** A stop while the start is pending *)

Module PendingStartFacts.
Import Session PendingStart.

(** With nothing in between, the two steps are [startLive]. *)
Lemma startLive_in_two_steps (granted : bool) (s : session) :
  resume granted (request s) = startLive granted s.
Proof. destruct granted; reflexivity. Qed.

(** X18.  A stop does not cancel a start that is waiting for the
    microphone.  If the button is clicked again before the request is
    answered, [stopLive] runs and finds nothing to release; when the
    request is then granted, the devices are taken and the channel is
    opened although the status is idle.  The button, showing an idle
    session, then starts a second session: it opens another channel
    without closing the first, whose handle is overwritten. *)
Theorem stop_does_not_cancel_pending_start (s : session) :
  sessionPromiseRef s = None →
  let stopped := click true (request s) in
  let resumed := resume true stopped.1 in
  let again := click true resumed.1 in
  stopped.1 = mkSession idle (streamRef s) (inputAudioCtxRef s)
                (outputAudioCtxRef s) None 0 (acquired s) ∧
  Forall (λ e, e ≠ CloseChannel) stopped.2 ∧
  connectionStatus resumed.1 = idle ∧
  sessionPromiseRef resumed.1 = Some (acquired s + 3) ∧
  filter (λ e, acquires e = true) resumed.2 =
    [GetUserMedia true; NewAudioContext 16000; NewAudioContext 24000; Connect] ∧
  again.2 =
    [GetUserMedia true; NewAudioContext 16000; NewAudioContext 24000; Connect] ∧
  sessionPromiseRef again.1 = Some (acquired s + 7).
Proof.
  intros Hnone stopped resumed again.
  subst stopped resumed again. unfold click, request. simpl.
  unfold stopLive. simpl. rewrite Hnone. simpl.
  split; [reflexivity |]. split.
  { destruct (streamRef s), (inputAudioCtxRef s), (outputAudioCtxRef s);
      simpl; repeat constructor; discriminate. }
  split; [reflexivity |]. split; [reflexivity |].
  split; [reflexivity |]. split; [reflexivity |].
  simpl. f_equal. lia.
Qed.

Lemma stop_does_not_cancel_pending_start_witness :
  let s := mkSession idle None None None None 0 0 in
  let stopped := click true (request s) in
  let resumed := resume true stopped.1 in
  let again := click true resumed.1 in
  stopped.1 = mkSession idle (streamRef s) (inputAudioCtxRef s)
                (outputAudioCtxRef s) None 0 (acquired s) ∧
  Forall (λ e, e ≠ CloseChannel) stopped.2 ∧
  connectionStatus resumed.1 = idle ∧
  sessionPromiseRef resumed.1 = Some (acquired s + 3) ∧
  filter (λ e, acquires e = true) resumed.2 =
    [GetUserMedia true; NewAudioContext 16000; NewAudioContext 24000; Connect] ∧
  again.2 =
    [GetUserMedia true; NewAudioContext 16000; NewAudioContext 24000; Connect] ∧
  sessionPromiseRef again.1 = Some (acquired s + 7).
Proof.
  intros s.
  apply (stop_does_not_cancel_pending_start s). reflexivity.
Defined.

End PendingStartFacts.

(** ** More on slide updates, and the images *)

Module SlidesExtras.
Import Json Slides Images SlidesFacts.

Lemma array_set_length (a : array) (i : nat) (x : object) :
  length (array_set a i x) = Nat.max (length a) (S i).
Proof.
  unfold array_set. case_bool_decide as Hi.
  - rewrite length_insert. lia.
  - rewrite !length_app, length_replicate. simpl. lia.
Qed.

Lemma array_set_set (a : array) (i : nat) (x y : object) :
  array_set (array_set a i x) i y = array_set a i y.
Proof.
  unfold array_set at 1.
  rewrite bool_decide_eq_true_2 by (rewrite array_set_length; lia).
  unfold array_set. case_bool_decide as Hi.
  - apply list_insert_insert_eq.
  - rewrite app_assoc.
    rewrite insert_app_r_alt; rewrite length_app, length_replicate; [| lia].
    replace (i - (length a + (i - length a))) with 0 by lia.
    simpl. now rewrite <- app_assoc.
Qed.

(** X20.  An update never removes a slide.  It leaves the number of
    slides as it is when the active index is inside the array; when the
    index is past the end, the array grows to reach it. *)
Theorem handleUpdateCurrentSlide_length (updates : option object) (a : app) :
  length (slides (presentation (handleUpdateCurrentSlide updates a))) =
    Nat.max (length (slides (presentation a))) (S (activeSlideIndex a)).
Proof. apply array_set_length. Qed.

(** X21.  Two updates in a row are one update with the fields of both,
    the later winning where both name a field. *)
Theorem handleUpdateCurrentSlide_twice (u1 u2 : option object) (a : app) :
  handleUpdateCurrentSlide u2 (handleUpdateCurrentSlide u1 a) =
  handleUpdateCurrentSlide (Some (spread u2 ∪ spread u1)) a.
Proof.
  unfold handleUpdateCurrentSlide. simpl.
  rewrite array_get_set_eq, array_set_set. simpl.
  now rewrite (assoc_L (∪)).
Qed.

Lemma array_get_Some_lt (a : array) (i : nat) (x : object) :
  array_get a i = Some x → a !! i = Some (Some x) ∧ i < length a.
Proof.
  unfold array_get. intros H.
  destruct (a !! i) as [[y |] |] eqn:E; try discriminate.
  injection H as ->. split; [reflexivity |]. now apply lookup_lt_Some in E.
Qed.

Lemma array_get_insert_eq (a : array) (i : nat) (x : object) :
  i < length a → array_get (<[i := Some x]> a) i = Some x.
Proof. intros Hi. unfold array_get. now rewrite list_lookup_insert_eq. Qed.

Lemma array_get_insert_ne (a : array) (i j : nat) (x : object) :
  j ≠ i → array_get (<[i := Some x]> a) j = array_get a j.
Proof. intros Hne. unfold array_get. now rewrite list_lookup_insert_ne. Qed.

(** X22.  The arrival of an image changes one field of one slide.  If
    the array has no slide at the index (the presentation was replaced by
    a shorter one), the slides stay as they are and the array is not
    extended; otherwise only [imageUrl] of that slide changes.  The
    other slides, the number of slides, the id, the title, the sources
    and the active index are unchanged, and the result is saved. *)
Theorem onImage_frame (i : nat) (url : string) (a : app) :
  let a' := onImage i url a in
  length (slides (presentation a')) = length (slides (presentation a)) ∧
  p_id (presentation a') = p_id (presentation a) ∧
  p_title (presentation a') = p_title (presentation a) ∧
  sources (presentation a') = sources (presentation a) ∧
  activeSlideIndex a' = activeSlideIndex a ∧
  saved a' = Some (presentation a') ∧
  (∀ j, j ≠ i →
     array_get (slides (presentation a')) j =
     array_get (slides (presentation a)) j) ∧
  match array_get (slides (presentation a)) i with
  | None => slides (presentation a') = slides (presentation a)
  | Some slide =>
      array_get (slides (presentation a')) i =
        Some (<["imageUrl" := Str url]> slide)
  end.
Proof.
  intros a'. subst a'. unfold onImage. simpl.
  destruct (array_get (slides (presentation a)) i) as [slide |] eqn:E.
  - destruct (array_get_Some_lt _ _ _ E) as [_ Hi].
    rewrite length_insert. repeat (split; [reflexivity |]).
    split; [intros j Hj; now apply array_get_insert_ne |].
    now apply array_get_insert_eq.
  - repeat (split; [reflexivity |]). split; reflexivity.
Qed.

Lemma insert_array_set_ne (a : array) (i k : nat) (x : object) (y : option object) :
  i ≠ k → i < length a →
  <[i := y]> (array_set a k x) = array_set (<[i := y]> a) k x.
Proof.
  intros Hne Hi. unfold array_set. rewrite length_insert.
  case_bool_decide as Hk.
  - now apply list_insert_insert_ne.
  - now rewrite insert_app_l.
Qed.

(** X23.  An image arrival and a slide update can be applied in either
    order with the same result, when they concern different slides, or
    when the slide exists and the update does not set [imageUrl]. *)
Theorem onImage_update_commute
    (i : nat) (url : string) (updates : option object) (a : app) :
  i ≠ activeSlideIndex a ∨
  (is_Some (array_get (slides (presentation a)) i) ∧
   spread updates !! "imageUrl" = None) →
  onImage i url (handleUpdateCurrentSlide updates a) =
  handleUpdateCurrentSlide updates (onImage i url a).
Proof.
  intros H. unfold onImage, handleUpdateCurrentSlide. simpl.
  set (k := activeSlideIndex a). set (n := slides (presentation a)).
  destruct (decide (i = k)) as [-> | Hne].
  - destruct H as [H | [[slide Hslide] Hkey]]; [contradiction |].
    fold k in Hslide. fold n in Hslide.
    destruct (array_get_Some_lt _ _ _ Hslide) as [_ Hk].
    rewrite array_get_set_eq, Hslide. simpl.
    rewrite array_get_insert_eq by assumption. simpl.
    assert (<["imageUrl":=Str url]> (spread updates ∪ slide) =
            spread updates ∪ <["imageUrl":=Str url]> slide) as ->.
    { apply map_eq. intros key.
      destruct (decide (key = "imageUrl")) as [-> | Hkne].
      - rewrite lookup_insert_eq, lookup_union_r by assumption.
        now rewrite lookup_insert_eq.
      - rewrite lookup_insert_ne by congruence.
        rewrite !lookup_union, lookup_insert_ne by congruence. reflexivity. }
    unfold array_set. rewrite length_insert.
    rewrite !bool_decide_eq_true_2 by assumption.
    now rewrite !list_insert_insert_eq.
  - rewrite array_get_set_ne by assumption.
    destruct (array_get n i) as [slide |] eqn:E.
    + destruct (array_get_Some_lt _ _ _ E) as [_ Hi].
      rewrite array_get_insert_ne by congruence.
      now rewrite insert_array_set_ne.
    + reflexivity.
Qed.

Lemma onImage_update_commute_witness :
  let a := mkApp (mkPresentation "1" "t" [Some {["title" := Str "a"]}] None)
             0 None in
  onImage 0 "u" (handleUpdateCurrentSlide (Some {["title" := Str "b"]}) a) =
  handleUpdateCurrentSlide (Some {["title" := Str "b"]}) (onImage 0 "u" a).
Proof.
  intros a.
  apply (onImage_update_commute 0 "u" (Some {["title" := Str "b"]}) a).
  right. split; [eexists; reflexivity | reflexivity].
Defined.

End SlidesExtras.

(** ** Navigation and layout *)

Module NavigationFacts.
Import Navigation Renderer.

Lemma navigate_in_range (len : nat) (v : Z) (a : action) :
  (0 <= v < Z.of_nat len)%Z → (0 <= navigate len v a < Z.of_nat len)%Z.
Proof.
  intros Hv. destruct a as [| | idx]; simpl; [lia | lia |].
  case_bool_decide; lia.
Qed.

(** X24.  Starting from a slide of the presentation, no sequence of
    previous, next and thumbnail clicks moves the index outside the
    presentation. *)
Theorem navigation_stays_in_range (len : nat) (v : Z) (actions : list action) :
  (0 <= v < Z.of_nat len)%Z →
  (0 <= foldl (navigate len) v actions < Z.of_nat len)%Z.
Proof.
  revert v. induction actions as [| a actions IH]; intros v Hv; [exact Hv |].
  simpl. apply IH, navigate_in_range, Hv.
Qed.

Lemma navigation_stays_in_range_witness :
  (0 <= foldl (navigate 3) 0%Z [Previous; Next; Next; Next; Thumbnail 7]
   < Z.of_nat 3)%Z.
Proof.
  apply (navigation_stays_in_range 3 0%Z
           [Previous; Next; Next; Next; Thumbnail 7]).
  lia.
Defined.

(** X25.  The two-column layout shows the first eight lines of the
    content, in order, at most four per column; a ninth line and the
    lines after it are not shown. *)
Theorem columns_show_first_eight (content : list string) :
  concat (columns content) = take 8 content ∧
  Forall (λ col, length col ≤ 4) (columns content).
Proof.
  unfold columns, slice. simpl. rewrite app_nil_r, drop_0. split.
  - apply (take_take_drop content 4 4).
  - constructor; [rewrite length_take; lia |].
    constructor; [rewrite length_take; lia | constructor].
Qed.

End NavigationFacts.

(** ** Grounding sources *)

Module GroundingFacts.
Import Grounding.

(** X26.  No collected source has an empty URI or an empty title: a
    chunk without URI is skipped, and a missing or empty title is
    replaced by the URI. *)
Theorem collect_nonempty (chunks : list Chunk) (s : Source) :
  s ∈ collect chunks → s_uri s ≠ "" ∧ s_title s ≠ "".
Proof.
  unfold collect. intros H.
  apply list_elem_of_omap in H as (chunk & _ & H).
  destruct (web chunk) as [w |]; [| discriminate]. simpl in H.
  assert (∀ o u, truthy o = Some u → u ≠ "") as Htruthy.
  { intros [x |] u; simpl; [| discriminate].
    case_bool_decide; [discriminate | congruence]. }
  destruct (truthy (uri w)) as [u |] eqn:Hu; [| discriminate].
  simpl in H. injection H as <-. simpl.
  split; [now apply (Htruthy (uri w)) |].
  destruct (truthy (title w)) as [t |] eqn:Ht; simpl.
  - now apply (Htruthy (title w)).
  - now apply (Htruthy (uri w)).
Qed.

Lemma collect_nonempty_witness :
  s_uri (mkSource "u" "u") ≠ "" ∧ s_title (mkSource "u" "u") ≠ "".
Proof.
  apply (collect_nonempty
           [mkChunk None; mkChunk (Some (mkWeb (Some "u") (Some "")))]
           (mkSource "u" "u")).
  apply list_elem_of_singleton. reflexivity.
Defined.

Section Map.
Context {V : Type}.
Implicit Types (m : list (string * V)) (k : string) (v : V).

Lemma Map_set_fresh m k v : k ∉ m.*1 → Map_set k v m = m ++ [(k, v)].
Proof.
  induction m as [| [k' v'] m IH]; intros Hk; [reflexivity |].
  simpl in *. apply not_elem_of_cons in Hk as [Hne Hk].
  rewrite bool_decide_eq_false_2 by congruence. now rewrite IH.
Qed.

Lemma Map_set_keys m k v :
  (Map_set k v m).*1 = if bool_decide (k ∈ m.*1) then m.*1 else m.*1 ++ [k].
Proof.
  induction m as [| [k' v'] m IH]; [reflexivity |].
  cbn [Map_set]. rewrite (fmap_cons fst (k', v') m). cbn [fst].
  destruct (decide (k' = k)) as [-> | Hne].
  - rewrite (bool_decide_eq_true_2 (k = k)) by reflexivity.
    rewrite (bool_decide_eq_true_2 (k ∈ k :: m.*1)) by (now left).
    reflexivity.
  - rewrite (bool_decide_eq_false_2 (k' = k)) by assumption.
    rewrite fmap_cons, IH. cbn [fst].
    destruct (decide (k ∈ m.*1)) as [Hin | Hnin].
    + rewrite (bool_decide_eq_true_2 (k ∈ m.*1)) by assumption.
      now rewrite bool_decide_eq_true_2 by (now right).
    + rewrite (bool_decide_eq_false_2 (k ∈ m.*1)) by assumption.
      rewrite bool_decide_eq_false_2; [reflexivity |].
      intros Hin. apply elem_of_cons in Hin as [-> | Hin]; contradiction.
Qed.

Lemma Map_set_NoDup m k v : NoDup m.*1 → NoDup (Map_set k v m).*1.
Proof.
  intros Hnd. rewrite Map_set_keys. case_bool_decide as Hk; [assumption |].
  apply NoDup_app. split; [assumption |]. split; [| apply NoDup_singleton].
  intros x Hx Hx'. apply list_elem_of_singleton in Hx' as ->. contradiction.
Qed.

(** The values of a map after a key is set. *)
Lemma Map_set_values m k v (x : V) :
  NoDup m.*1 →
  x ∈ (Map_set k v m).*2 ↔ x = v ∨ ∃ k', k' ≠ k ∧ (k', x) ∈ m.
Proof.
  induction m as [| [k' v'] m IH]; intros Hnd.
  - simpl. rewrite list_elem_of_singleton. split; [now left |].
    intros [-> | (? & _ & H)]; [reflexivity | now apply elem_of_nil in H].
  - simpl in Hnd. apply NoDup_cons in Hnd as [Hk' Hnd]. simpl.
    destruct (decide (k' = k)) as [-> | Hne].
    + rewrite bool_decide_eq_true_2 by reflexivity. simpl.
      rewrite elem_of_cons. split.
      * intros [-> | Hx]; [now left |]. right.
        apply list_elem_of_fmap in Hx as ([k2 x2] & -> & Hin).
        exists k2. split; [| now right].
        intros ->. apply Hk'. apply list_elem_of_fmap.
        now exists (k, x2).
      * intros [-> | (k2 & Hk2 & Hin)]; [now left |]. right.
        apply elem_of_cons in Hin as [[= -> ->] | Hin]; [congruence |].
        apply list_elem_of_fmap. now exists (k2, x).
    + rewrite bool_decide_eq_false_2 by assumption. simpl.
      rewrite elem_of_cons, (IH Hnd). split.
      * intros [-> | [-> | (k2 & Hk2 & Hin)]].
        -- right. exists k'. split; [assumption | now left].
        -- now left.
        -- right. exists k2. split; [assumption | now right].
      * intros [-> | (k2 & Hk2 & Hin)]; [right; now left |].
        apply elem_of_cons in Hin as [[= -> ->] | Hin]; [now left |].
        right. right. now exists k2.
Qed.

End Map.

Lemma Map_of_snoc (sources : list Source) (s : Source) :
  Map_of ((λ s, (s_uri s, s)) <$> (sources ++ [s])) =
  Map_set (s_uri s) s (Map_of ((λ s, (s_uri s, s)) <$> sources)).
Proof. unfold Map_of. now rewrite fmap_app, foldl_app. Qed.

Lemma Map_set_elem (m : list (string * Source)) (k k' : string) (v x : Source) :
  (k', x) ∈ Map_set k v m → (k' = k ∧ x = v) ∨ (k', x) ∈ m.
Proof.
  induction m as [| [k2 v2] m IH]; simpl.
  - intros H. apply list_elem_of_singleton in H as [= -> ->]. now left.
  - case_bool_decide as Hdec.
    + intros H. apply elem_of_cons in H as [[= -> ->] | H]; [now left |].
      right. now right.
    + intros H. apply elem_of_cons in H as [[= -> ->] | H];
        [right; now left |].
      destruct (IH H) as [? | ?]; [now left | right; now right].
Qed.

Lemma Map_of_keyed (sources : list Source) :
  keyed (Map_of ((λ s, (s_uri s, s)) <$> sources)).
Proof.
  induction sources as [| s sources IH] using rev_ind.
  - split; [constructor |]. intros k s H. now apply elem_of_nil in H.
  - rewrite Map_of_snoc. destruct IH as [Hnd Hkey]. split.
    + now apply Map_set_NoDup.
    + intros k x H. apply Map_set_elem in H as [[-> ->] | H];
        [reflexivity | now apply Hkey].
Qed.

Lemma Map_of_keys (sources : list Source) (u : string) :
  u ∈ (Map_of ((λ s, (s_uri s, s)) <$> sources)).*1 ↔ u ∈ s_uri <$> sources.
Proof.
  induction sources as [| s sources IH] using rev_ind.
  - reflexivity.
  - rewrite Map_of_snoc, Map_set_keys, fmap_app, elem_of_app. simpl.
    rewrite list_elem_of_singleton. case_bool_decide as Hin.
    + rewrite IH. split; [now left |].
      intros [H | ->]; [assumption | now apply IH].
    + rewrite elem_of_app, IH, list_elem_of_singleton. reflexivity.
Qed.

Lemma keyed_uris (m : list (string * Source)) :
  (∀ k s, (k, s) ∈ m → k = s_uri s) → s_uri <$> m.*2 = m.*1.
Proof.
  induction m as [| [k x] m IH]; intros Hkey; [reflexivity |].
  rewrite !fmap_cons. cbn [fst snd]. f_equal.
  - symmetry. apply Hkey. now left.
  - apply IH. intros k' x' H. apply Hkey. now right.
Qed.

Lemma dedup_uris (sources : list Source) :
  s_uri <$> dedup sources = (Map_of ((λ s, (s_uri s, s)) <$> sources)).*1.
Proof. unfold dedup. apply keyed_uris, Map_of_keyed. Qed.

(** X27.  The deduplicated sources have pairwise distinct URIs, and
    exactly the URIs of the sources collected. *)
Theorem dedup_distinct_and_complete (sources : list Source) :
  NoDup (s_uri <$> dedup sources) ∧
  ∀ u, u ∈ s_uri <$> dedup sources ↔ u ∈ s_uri <$> sources.
Proof.
  rewrite dedup_uris. split.
  - apply Map_of_keyed.
  - apply Map_of_keys.
Qed.

(** X28.  Of several sources with one URI, the one collected last is
    kept: a source is in the result exactly when it is in the input and
    no later source of the input has its URI. *)
Theorem dedup_keeps_last (sources : list Source) (s : Source) :
  s ∈ dedup sources ↔
  ∃ l1 l2, sources = l1 ++ s :: l2 ∧ s_uri s ∉ s_uri <$> l2.
Proof.
  revert s. induction sources as [| x sources IH] using rev_ind; intros s.
  - split; [intros H; now apply elem_of_nil in H |].
    intros (l1 & l2 & H & _). now destruct l1.
  - unfold dedup. rewrite Map_of_snoc.
    destruct (Map_of_keyed sources) as [Hnd Hkey].
    rewrite (Map_set_values _ _ _ _ Hnd). split.
    + intros [-> | (k & Hk & Hin)].
      * exists sources, []. split; [reflexivity |]. apply not_elem_of_nil.
      * pose proof (Hkey k s Hin) as ->.
        assert (s ∈ dedup sources) as Hs.
        { unfold dedup. apply list_elem_of_fmap. now exists (s_uri s, s). }
        apply IH in Hs as (l1 & l2 & -> & Hlast).
        exists l1, (l2 ++ [x]). split; [now rewrite <- app_assoc |].
        rewrite fmap_app, not_elem_of_app. split; [assumption |].
        simpl. rewrite list_elem_of_singleton. congruence.
    + intros (l1 & l2 & Heq & Hlast).
      destruct l2 as [| y l2 _] using rev_ind.
      * apply app_inj_tail in Heq as [-> ->]. now left.
      * rewrite app_comm_cons, app_assoc in Heq.
        apply app_inj_tail in Heq as [-> ->].
        rewrite fmap_app, not_elem_of_app in Hlast.
        destruct Hlast as [Hl2 Hx]. simpl in Hx.
        rewrite list_elem_of_singleton in Hx.
        right. exists (s_uri s). split; [congruence |].
        assert (s ∈ dedup (l1 ++ s :: l2)) as Hs
          by (apply IH; now exists l1, l2).
        unfold dedup in Hs.
        apply list_elem_of_fmap in Hs as ([k s'] & -> & Hin).
        simpl. destruct (Map_of_keyed (l1 ++ s' :: l2)) as [_ Hkey'].
        now rewrite <- (Hkey' k s' Hin).
Qed.

(** X29.  Sources that already have distinct URIs pass through
    unchanged, in their order. *)
Theorem dedup_distinct (sources : list Source) :
  NoDup (s_uri <$> sources) → dedup sources = sources.
Proof.
  induction sources as [| s sources IH] using rev_ind; intros Hnd;
    [reflexivity |].
  rewrite fmap_app in Hnd. apply NoDup_app in Hnd as (Hnd & Hfresh & _).
  unfold dedup. rewrite Map_of_snoc, Map_set_fresh.
  - rewrite fmap_app. simpl. f_equal. now apply IH.
  - rewrite Map_of_keys. intros Hin. apply (Hfresh _ Hin).
    simpl. now apply list_elem_of_singleton.
Qed.

Lemma dedup_distinct_witness :
  dedup [mkSource "a" "u1"; mkSource "b" "u2"] =
    [mkSource "a" "u1"; mkSource "b" "u2"].
Proof.
  apply (dedup_distinct [mkSource "a" "u1"; mkSource "b" "u2"]).
  simpl. apply NoDup_cons. split; [| apply NoDup_singleton].
  intros H. apply list_elem_of_singleton in H. discriminate H.
Defined.

End GroundingFacts.

(** ** The level meter *)

Module VisualizerFacts.
Import JS JSFacts Transport Visualizer.

Lemma peak_from (acc : Z) (data : list Z) :
  let r := foldl (λ max d, if (max <? d)%Z then d else max) acc data in
  (acc <= r)%Z ∧ (∀ d, d ∈ data → d <= r)%Z ∧
  ((acc <= 255)%Z → Forall is_byte data → r <= 255)%Z.
Proof.
  revert acc. induction data as [| x data IH]; intros acc; simpl.
  - split; [lia |]. split; [| intros; lia].
    intros d Hd. now apply elem_of_nil in Hd.
  - destruct (IH (if (acc <? x)%Z then x else acc)) as (H1 & H2 & H3).
    destruct (Z.ltb_spec acc x); (split; [lia |]); split.
    + intros d Hd. apply elem_of_cons in Hd as [-> | Hd]; [lia |].
      now apply H2.
    + intros Hacc Hb. apply Forall_cons in Hb as [Hx Hb].
      apply H3; [unfold is_byte in Hx; lia | assumption].
    + intros d Hd. apply elem_of_cons in Hd as [-> | Hd]; [lia |].
      now apply H2.
    + intros Hacc Hb. apply Forall_cons in Hb as [Hx Hb]. now apply H3.
Qed.

Lemma ratio_le (a b : Z) :
  (a <= b)%Z → (inject_Z a / 255 <= inject_Z b / 255)%Q.
Proof.
  intros H. rewrite Zle_Qle in H.
  unfold Qdiv. change (/ 255)%Q with (1 # 255)%Q. lra.
Qed.

(** X30.  For the byte data of the analyser: the level lies in [0, 1];
    there are sixteen bars; and when the data is not empty every bar is
    a number in [0, level], read from inside the data.  The level is at
    least as high as the highest bar. *)
Theorem level_bounds_bars (data : list Z) :
  Forall is_byte data →
  (0 <= level data)%Q ∧ (level data <= 1)%Q ∧
  length (simplified data) = 16 ∧
  (data ≠ [] →
   ∀ bar, bar ∈ simplified data →
     ∃ x, bar = Fin x ∧ (0 <= x)%Q ∧ (x <= level data)%Q).
Proof.
  intros Hb. destruct (peak_from 0 data) as (Hlo & Hmax & Hhi).
  fold (peak data) in Hlo, Hmax, Hhi.
  assert (peak data <= 255)%Z as Hhi' by (apply Hhi; [lia | assumption]).
  assert ((0 <= level data)%Q ∧ (level data <= 1)%Q) as [Hl0 Hl1].
  { pose proof Hlo as Hlo'. rewrite Zle_Qle in Hlo', Hhi'.
    change (inject_Z 0) with 0%Q in Hlo'.
    change (inject_Z 255) with (255 # 1)%Q in Hhi'.
    unfold level, Qdiv. change (/ 255)%Q with (1 # 255)%Q. split; lra. }
  split; [exact Hl0 |]. split; [exact Hl1 |].
  split; [unfold simplified; now rewrite length_fmap, length_seq |].
  intros Hne bar Hbar. unfold simplified in Hbar.
  apply list_elem_of_fmap in Hbar as (i & -> & Hi).
  apply elem_of_seq in Hi as [_ Hi].
  assert (0 < length data) by (destruct data; [congruence | simpl; lia]).
  assert (i * length data / 16 < length data) as Hidx
    by (apply Nat.Div0.div_lt_upper_bound; nia).
  destruct (lookup_lt_is_Some_2 data _ Hidx) as [d Hd]. rewrite Hd.
  assert (d ∈ data) as Hin by (apply list_elem_of_lookup; eauto).
  rewrite Forall_forall in Hb. pose proof (Hb d Hin) as Hbyte.
  unfold is_byte in Hbyte.
  eexists. split; [reflexivity |]. split.
  - destruct Hbyte as [Hd0 _]. rewrite Zle_Qle in Hd0.
    change (inject_Z 0) with 0%Q in Hd0.
    unfold Qdiv. change (/ 255)%Q with (1 # 255)%Q. lra.
  - apply ratio_le, Hmax, Hin.
Qed.

Lemma level_bounds_bars_witness :
  (0 <= level [3; 200; 17]%Z)%Q ∧ (level [3; 200; 17]%Z <= 1)%Q ∧
  length (simplified [3; 200; 17]%Z) = 16 ∧
  ([3; 200; 17]%Z ≠ [] →
   ∀ bar, bar ∈ simplified [3; 200; 17]%Z →
     ∃ x, bar = Fin x ∧ (0 <= x)%Q ∧ (x <= level [3; 200; 17]%Z)%Q).
Proof.
  apply (level_bounds_bars [3; 200; 17]%Z).
  repeat constructor; unfold is_byte; lia.
Defined.

End VisualizerFacts.

(** ** Acknowledgements *)

Module DispatcherExtras.
Import Json Dispatcher DispatcherFacts.

Lemma dispatch_acknowledges_each_call_witness :
  (dispatch [mkFunctionCall (Some "a") (Some "no_such_tool") None;
             mkFunctionCall (Some "b") (Some "create_presentation")
               (Some {["topic" := Str "t"]})]).2 = Completed ∧
  acks (dispatch [mkFunctionCall (Some "a") (Some "no_such_tool") None;
                  mkFunctionCall (Some "b") (Some "create_presentation")
                    (Some {["topic" := Str "t"]})]).1 =
    (λ fc, (id fc, name fc)) <$>
      [mkFunctionCall (Some "a") (Some "no_such_tool") None;
       mkFunctionCall (Some "b") (Some "create_presentation")
         (Some {["topic" := Str "t"]})].
Proof.
  apply (dispatch_acknowledges_each_call
           [mkFunctionCall (Some "a") (Some "no_such_tool") None;
            mkFunctionCall (Some "b") (Some "create_presentation")
              (Some {["topic" := Str "t"]})]).
  constructor; [intros H; discriminate H |].
  constructor; [intros _; eexists; reflexivity | constructor].
Defined.

End DispatcherExtras.

(** ** Doubles *)

Module Binary64Facts.
Import Binary64.

Lemma pow2_pos (e : Z) : (0 < pow2 e)%Q.
Proof. apply Qpower_0_lt. reflexivity. Qed.

Lemma pow2_add (a b : Z) : (pow2 (a + b) == pow2 a * pow2 b)%Q.
Proof. apply Qpower_plus. discriminate. Qed.

Lemma pow2_le (a b : Z) : (a <= b)%Z → (pow2 a <= pow2 b)%Q.
Proof. intros H. apply Qpower_le_compat_l; [exact H | discriminate]. Qed.

Lemma pow2_lt_inv (a b : Z) : (pow2 a < pow2 b)%Q → (a < b)%Z.
Proof. intros H. apply (Qpower_lt_compat_l_inv 2); [exact H | reflexivity]. Qed.

Lemma pow2_inject (n : Z) : (0 <= n)%Z → (inject_Z (2 ^ n) == pow2 n)%Q.
Proof. intros H. now apply Zpower_Qpower. Qed.

(** A positive integer between two powers of two. *)
Lemma log2_bounds (n : Z) :
  (0 < n)%Z →
  (pow2 (Z.log2 n) <= inject_Z n)%Q ∧ (inject_Z n < pow2 (Z.log2 n + 1))%Q.
Proof.
  intros Hn. destruct (Z.log2_spec n Hn) as [Hlo Hhi].
  pose proof (Z.log2_nonneg n) as Hnn.
  rewrite <- !pow2_inject by lia.
  rewrite <- Zle_Qle, <- Zlt_Qlt.
  replace (Z.succ (Z.log2 n)) with (Z.log2 n + 1)%Z in Hhi by lia.
  split; assumption.
Qed.

Lemma exponent_spec (q : Q) :
  (0 < q)%Q →
  (pow2 (exponent q) <= q)%Q ∧ (q < pow2 (exponent q + 1))%Q.
Proof.
  intros Hq. destruct q as [n d].
  assert (0 < n)%Z as Hn by (unfold Qlt in Hq; simpl in Hq; lia).
  destruct (log2_bounds n Hn) as [Hnlo Hnhi].
  destruct (log2_bounds (Zpos d) eq_refl) as [Hdlo Hdhi].
  unfold exponent. cbn [Qnum Qden].
  set (a := Z.log2 n) in *. set (b := Z.log2 (Z.pos d)) in *.
  assert (0 < inject_Z (Z.pos d))%Q as Hdpos by reflexivity.
  assert (n # d == inject_Z n / inject_Z (Z.pos d))%Q as E
    by apply Qmake_Qdiv.
  destruct (Qle_bool (pow2 (a - b)) (n # d)) eqn:Hcmp.
  - apply Qle_bool_iff in Hcmp. split; [exact Hcmp |].
    rewrite E. apply Qlt_shift_div_r; [exact Hdpos |].
    apply Qlt_le_trans with (pow2 (a + 1)); [exact Hnhi |].
    replace (a + 1)%Z with (a - b + 1 + b)%Z by lia.
    rewrite pow2_add. apply Qmult_le_l; [apply pow2_pos | exact Hdlo].
  - assert (n # d < pow2 (a - b))%Q as Hlt.
    { apply Qnot_le_lt. intros H. apply Qle_bool_iff in H. congruence. }
    replace (a - b - 1 + 1)%Z with (a - b)%Z by lia.
    split; [| exact Hlt].
    rewrite E. apply Qle_shift_div_l; [exact Hdpos |].
    apply Qle_trans with (pow2 a); [| exact Hnlo].
    replace a with (a - b - 1 + (b + 1))%Z at 2 by lia.
    rewrite pow2_add. apply Qmult_le_l; [apply pow2_pos |].
    now apply Qlt_le_weak.
Qed.

Lemma exponent_mono (x y : Q) :
  (0 < x)%Q → (x <= y)%Q → (exponent x <= exponent y)%Z.
Proof.
  intros Hx Hxy.
  destruct (exponent_spec x Hx) as [Hlo _].
  destruct (exponent_spec y) as [_ Hhi]; [lra |].
  assert (exponent x < exponent y + 1)%Z; [| lia].
  apply pow2_lt_inv. lra.
Qed.

(** Rounding to the nearest integer. *)

Lemma round_half_even_floor (q : Q) :
  (Qfloor q <= round_half_even q <= Qfloor q + 1)%Z.
Proof.
  unfold round_half_even.
  destruct (q - inject_Z (Qfloor q) ?= 1 # 2)%Q; [| lia | lia].
  destruct (Z.even (Qfloor q)); lia.
Qed.

Lemma round_half_even_ge (q : Q) (z : Z) :
  (inject_Z z <= q)%Q → (z <= round_half_even q)%Z.
Proof.
  intros H. pose proof (round_half_even_floor q).
  assert (z <= Qfloor q)%Z; [| lia].
  rewrite <- (Qfloor_Z z). now apply Qfloor_resp_le.
Qed.

Lemma round_half_even_le (q : Q) (z : Z) :
  (q <= inject_Z z)%Q → (round_half_even q <= z)%Z.
Proof.
  intros H. pose proof (round_half_even_floor q) as [_ Hup].
  pose proof (Qfloor_le q) as Hfl.
  assert (Qfloor q <= z)%Z as Hfz.
  { rewrite <- (Qfloor_Z z). now apply Qfloor_resp_le. }
  destruct (Z.eq_dec (Qfloor q) z) as [E | Hne]; [| lia].
  unfold round_half_even.
  destruct (Qcompare_spec (q - inject_Z (Qfloor q)) (1 # 2)) as [H1 | H1 | H1].
  - rewrite E in H1. lra.
  - lia.
  - rewrite E in H1. lra.
Qed.

Lemma round_half_even_mono (a b : Q) :
  (a <= b)%Q → (round_half_even a <= round_half_even b)%Z.
Proof.
  intros Hab.
  pose proof (Qfloor_resp_le a b Hab) as Hfl.
  pose proof (round_half_even_floor a) as [_ Ha].
  pose proof (round_half_even_floor b) as [Hb _].
  destruct (Z.eq_dec (Qfloor a) (Qfloor b)) as [E | Hne]; [| lia].
  unfold round_half_even. rewrite E.
  destruct (Qcompare_spec (a - inject_Z (Qfloor b)) (1 # 2)) as [H1 | H1 | H1];
    destruct (Qcompare_spec (b - inject_Z (Qfloor b)) (1 # 2)) as [H2 | H2 | H2];
    try lia; try lra; destruct (Z.even (Qfloor b)); lia.
Qed.

Lemma round_half_even_error (q : Q) :
  (q - (1 # 2) <= inject_Z (round_half_even q))%Q ∧
  (inject_Z (round_half_even q) <= q + (1 # 2))%Q.
Proof.
  pose proof (Qfloor_le q) as Hlo. pose proof (Qlt_floor q) as Hhi.
  rewrite inject_Z_plus in Hhi. change (inject_Z 1) with 1%Q in Hhi.
  unfold round_half_even.
  destruct (Qcompare_spec (q - inject_Z (Qfloor q)) (1 # 2)) as [H | H | H].
  - destruct (Z.even (Qfloor q)).
    + split; lra.
    + rewrite inject_Z_plus. change (inject_Z 1) with 1%Q. split; lra.
  - split; lra.
  - rewrite inject_Z_plus. change (inject_Z 1) with 1%Q. split; lra.
Qed.

Lemma ulp_pos (q : Q) : (0 < ulp q)%Q.
Proof. apply pow2_pos. Qed.

(** Scaling by the spacing, in both directions. *)
Lemma scaled_le (x u : Q) (z : Z) :
  (0 < u)%Q → (x <= inject_Z z * u)%Q → (round_half_even (x / u) <= z)%Z.
Proof.
  intros Hu H. apply round_half_even_le. now apply Qle_shift_div_r.
Qed.

Lemma scaled_ge (x u : Q) (z : Z) :
  (0 < u)%Q → (inject_Z z * u <= x)%Q → (z <= round_half_even (x / u))%Z.
Proof.
  intros Hu H. apply round_half_even_ge. now apply Qle_shift_div_l.
Qed.

Lemma round_pos_nonneg (x : Q) : (0 <= x)%Q → (0 <= round_pos x)%Q.
Proof.
  intros Hx. unfold round_pos.
  apply Qmult_le_0_compat; [| apply Qlt_le_weak, ulp_pos].
  change 0%Q with (inject_Z 0). rewrite <- Zle_Qle.
  apply scaled_ge; [apply ulp_pos |]. change (inject_Z 0 * ulp x)%Q with (0 * ulp x)%Q.
  lra.
Qed.

(** Rounding is monotone on the positive numbers. *)
Lemma round_pos_mono (x y : Q) :
  (0 < x)%Q → (x <= y)%Q → (round_pos x <= round_pos y)%Q.
Proof.
  intros Hx Hxy.
  assert (0 < y)%Q as Hy by lra.
  pose proof (exponent_mono x y Hx Hxy) as Hexp.
  destruct (exponent_spec x Hx) as [_ Hxhi].
  destruct (exponent_spec y Hy) as [Hylo _].
  unfold round_pos, ulp.
  set (ex := Z.max (exponent x) emin). set (ey := Z.max (exponent y) emin).
  pose proof (pow2_pos (ex - 52)) as Hux. pose proof (pow2_pos (ey - 52)) as Huy.
  destruct (Z.eq_dec ex ey) as [E | Hne].
  - rewrite <- E. apply Qmult_le_compat_r; [| lra].
    rewrite <- Zle_Qle. apply round_half_even_mono.
    unfold Qdiv. apply Qmult_le_compat_r; [exact Hxy |].
    apply Qlt_le_weak, Qinv_lt_0_compat, Hux.
  - assert (ex < ey)%Z as Hlt by (unfold ex, ey in *; lia).
    assert (ey = exponent y) as Hey by (unfold ex, ey in *; lia).
    apply Qle_trans with (pow2 (ex + 1)).
    + assert (pow2 (ex + 1) == inject_Z (2 ^ 53) * pow2 (ex - 52))%Q as E.
      { rewrite pow2_inject by lia. rewrite <- pow2_add. f_equiv. lia. }
      rewrite E. apply Qmult_le_compat_r; [| lra].
      rewrite <- Zle_Qle. apply scaled_le; [exact Hux |].
      rewrite <- E. apply Qle_trans with (pow2 (exponent x + 1)); [lra |].
      apply pow2_le. unfold ex. lia.
    + apply Qle_trans with (pow2 ey); [apply pow2_le; lia |].
      assert (pow2 ey == inject_Z (2 ^ 52) * pow2 (ey - 52))%Q as E.
      { rewrite pow2_inject by lia. rewrite <- pow2_add. f_equiv. lia. }
      rewrite E at 1. apply Qmult_le_compat_r; [| lra].
      rewrite <- Zle_Qle. apply scaled_ge; [exact Huy |].
      rewrite <- E, Hey. exact Hylo.
Qed.

(** Rounding is monotone on the non-negative numbers. *)
Lemma round64_mono (x y : Q) :
  (0 <= x)%Q → (x <= y)%Q → (round64 x <= round64 y)%Q.
Proof.
  intros Hx Hxy. unfold round64.
  destruct (Qcompare_spec x 0) as [Ex | Hlt | Hxpos]; [| lra |].
  - destruct (Qcompare_spec y 0) as [Ey | Hlt | Hypos]; [lra | lra |].
    apply round_pos_nonneg. lra.
  - destruct (Qcompare_spec y 0) as [Ey | Hlt | Hypos]; [lra | lra |].
    now apply round_pos_mono.
Qed.

Lemma round64_nonneg (x : Q) : (0 <= x)%Q → (0 <= round64 x)%Q.
Proof.
  intros Hx. unfold round64.
  destruct (Qcompare_spec x 0) as [Ex | Hlt | Hxpos]; [lra | lra |].
  apply round_pos_nonneg. lra.
Qed.

(** The rounded value is within half a spacing of the number. *)
Lemma round_pos_error (x : Q) :
  (0 < x)%Q →
  (x - ulp x / 2 <= round_pos x)%Q ∧ (round_pos x <= x + ulp x / 2)%Q.
Proof.
  intros Hx. pose proof (ulp_pos x) as Hu.
  destruct (round_half_even_error (x / ulp x)) as [Hlo Hhi].
  unfold round_pos.
  assert (x / ulp x * ulp x == x)%Q as E by (field; lra).
  apply (Qmult_le_compat_r _ _ (ulp x)) in Hlo; [| lra].
  apply (Qmult_le_compat_r _ _ (ulp x)) in Hhi; [| lra].
  rewrite Qmult_plus_distr_l in Hhi.
  unfold Qminus in Hlo. rewrite Qmult_plus_distr_l in Hlo.
  rewrite E in Hlo, Hhi.
  assert ((1 # 2) * ulp x == ulp x / 2)%Q as E1 by (field).
  assert (- (1 # 2) * ulp x == - (ulp x / 2))%Q as E2 by (field).
  rewrite E1 in Hhi. rewrite E2 in Hlo. split; lra.
Qed.

(** The doubles of a few numbers: the literals of the scheduler, a
    negative number, and two ties, which go to the even neighbour. *)
Example round64_values :
  (round64 (5 # 100) == 3602879701896397 # 2 ^ 56)%Q ∧
  (round64 (768 # 24000) == 1152921504606847 # 2 ^ 55)%Q ∧
  (round64 (1 # 2) == 1 # 2)%Q ∧
  (round64 (1 # 3) == 6004799503160661 # 2 ^ 54)%Q ∧
  (round64 (- (7 # 3)) == - (5254199565265579 # 2 ^ 51))%Q ∧
  (round64 (inject_Z (2 ^ 53 + 1)) == inject_Z (2 ^ 53))%Q ∧
  (round64 (inject_Z (2 ^ 53 + 3)) == inject_Z (2 ^ 53 + 4))%Q.
Proof. repeat split; vm_compute; reflexivity. Qed.

End Binary64Facts.

(** ** The scheduler with rounded sums *)

Module RoundedSchedulerFacts.
Import JS JSFacts Binary64 Binary64Facts Scheduler RoundedScheduler.

(** The only call of [source.start] made by [enqueue]. *)
Lemma rounded_enqueue_started (now dur : Q) (p : playback) :
  started (enqueue now dur p) =
    started p ++
    [mkScheduled (next_node p)
       (if Qltb (nextStartTime p) now then add now min_lead
        else nextStartTime p) dur].
Proof. reflexivity. Qed.

Lemma rounded_started_step (p : playback) (e : event) :
  ∃ l, started (step p e) = started p ++ l.
Proof.
  destruct e; simpl.
  - eexists. apply rounded_enqueue_started.
  - exists []. now rewrite app_nil_r.
  - exists []. now rewrite app_nil_r.
Qed.

Lemma rounded_started_run (p : playback) (es : list event) :
  started (run p es) = started p ++ scheduled_by p es.
Proof.
  unfold scheduled_by, run. revert p.
  induction es as [| e es IH]; intros p; simpl.
  - now rewrite drop_all, app_nil_r.
  - destruct (rounded_started_step p e) as [l Hl].
    rewrite IH, Hl, <- app_assoc, !drop_app_length. reflexivity.
Qed.

Lemma rounded_run_snoc (p : playback) (es : list event) (e : event) :
  run p (es ++ [e]) = step (run p es) e.
Proof. unfold run. apply foldl_snoc. Qed.

Lemma rounded_scheduled_by_snoc
    (p : playback) (es : list event) (e : event) :
  scheduled_by p (es ++ [e]) =
    scheduled_by p es ++ scheduled_by (run p es) [e].
Proof.
  apply (app_inv_head (started p)).
  rewrite <- rounded_started_run, app_assoc, <- rounded_started_run.
  rewrite rounded_run_snoc.
  apply (rounded_started_run (run p es) [e]).
Qed.

Lemma rounded_scheduled_by_one (p : playback) (e : event) :
  scheduled_by p [e] =
    match e with
    | Fragment now dur =>
        [mkScheduled (next_node p)
           (if Qltb (nextStartTime p) now then add now min_lead
            else nextStartTime p) dur]
    | _ => []
    end.
Proof.
  unfold scheduled_by, run. destruct e; simpl.
  - now rewrite drop_app_length.
  - now rewrite drop_all.
  - now rewrite drop_all.
Qed.

(** Completion callbacks leave the cursor and the device calls alone. *)
Lemma rounded_run_ended (p : playback) (sources : list nat) :
  nextStartTime (run p (Ended <$> sources)) = nextStartTime p ∧
  started (run p (Ended <$> sources)) = started p ∧
  next_node (run p (Ended <$> sources)) = next_node p.
Proof.
  revert p. induction sources as [| n sources IH]; intros p; [easy |].
  assert (run p (Ended <$> n :: sources) =
          run (onended n p) (Ended <$> sources)) as -> by reflexivity.
  destruct (IH (onended n p)) as (-> & -> & ->). easy.
Qed.

Lemma min_lead_nonneg : (0 <= min_lead)%Q.
Proof. apply round64_nonneg. unfold Qle. simpl. lia. Qed.

(** A sum of non-negative times loses at most half the spacing of the
    doubles around it. *)
Lemma add_error_below (x y : Q) :
  (0 <= x + y)%Q → (x + y - ulp (x + y) / 2 <= add x y)%Q.
Proof.
  intros Hs. unfold add, round64.
  pose proof (ulp_pos (x + y)) as Hu.
  destruct (Qcompare_spec (x + y) 0) as [E | Hlt | Hpos]; [| lra |].
  - assert (ulp (x + y) / 2 == ulp (x + y) * (1 # 2))%Q as -> by field.
    lra.
  - apply round_pos_error, Hpos.
Qed.

(** The start chosen by [enqueue] is at or after the cursor, and not
    negative when [now] is a non-negative double. *)
Lemma rounded_start_after_cursor (now cursor : Q) :
  (0 <= now)%Q → (round64 now == now)%Q →
  let start := if Qltb cursor now then add now min_lead else cursor in
  (cursor <= start)%Q ∧ (0 <= start)%Q.
Proof.
  intros Hnow Hdouble start. subst start.
  pose proof min_lead_nonneg as Hlead.
  case_Qltb cursor now; [| split; lra].
  assert (now <= add now min_lead)%Q as Hadd.
  { rewrite <- Hdouble at 1. apply round64_mono; lra. }
  split; lra.
Qed.

Lemma follows_cursor_snoc (l : list scheduled) (sch : scheduled) :
  follows_cursor l →
  (∀ a, last l = Some a →
        (add (start_time a) (length_s a) <= start_time sch)%Q) →
  follows_cursor (l ++ [sch]).
Proof.
  intros Hl Hlast i a b Ha Hb.
  destruct (decide (S i < length l)) as [Hin | Hout].
  - rewrite lookup_app_l in Ha, Hb by lia. eauto.
  - destruct (decide (S i = length l)) as [Hi | Hi].
    + rewrite lookup_app_l in Ha by lia.
      rewrite lookup_app_r, Hi, Nat.sub_diag in Hb by lia.
      injection Hb as <-. apply Hlast.
      rewrite last_lookup, <- Hi. exact Ha.
    + apply lookup_lt_Some in Hb. rewrite length_app in Hb. simpl in Hb. lia.
Qed.

(** The invariant of a run without interruption: the starts follow the
    cursor, the cursor is at or past the rounded end of the last start,
    and no source starts at a negative time or has a negative length. *)
Lemma rounded_run_invariant (p : playback) (es : list event) :
  Forall timed es →
  follows_cursor (scheduled_by p es) ∧
  (∀ a, last (scheduled_by p es) = Some a →
        (add (start_time a) (length_s a) <= nextStartTime (run p es))%Q) ∧
  Forall (λ a, (0 <= start_time a)%Q ∧ (0 <= length_s a)%Q)
         (scheduled_by p es).
Proof.
  induction es as [| e es IH] using rev_ind; intros Hes.
  - unfold scheduled_by, run. simpl. rewrite drop_all.
    split; [intros i a b Ha; discriminate Ha |].
    split; [intros a Ha; discriminate Ha | constructor].
  - apply Forall_app in Hes as [Hes He]. rewrite Forall_singleton in He.
    destruct (IH Hes) as (Hchain & Hcursor & Hpos).
    rewrite rounded_scheduled_by_snoc, rounded_scheduled_by_one,
      rounded_run_snoc.
    destruct e as [now dur | | source]; [| contradiction |].
    + destruct He as (Hnow & Hdouble & Hdur).
      destruct (rounded_start_after_cursor now (nextStartTime (run p es))
                  Hnow Hdouble) as [Hafter Hstart].
      split; [| split].
      * apply follows_cursor_snoc; [assumption |].
        intros a Ha. simpl. pose proof (Hcursor a Ha). lra.
      * intros a Ha. rewrite last_snoc in Ha. injection Ha as <-.
        simpl. apply Qle_refl.
      * apply Forall_app. split; [assumption |].
        apply Forall_singleton. simpl. split; assumption.
    + rewrite app_nil_r. split; [| split]; assumption.
Qed.

(** C2, as stated, fails.  The output clock reads 0.032 s (768 frames at
    24 kHz) when a fragment of half a second arrives on a fresh session,
    and the next fragment arrives in time.  The first starts at the
    double 0.032 + 0.05; the cursor it leaves is the double nearest to
    that start plus 0.5, which is 3/2^56 s below the exact sum; the
    second fragment starts at the cursor. *)
Lemma rounded_sum_below_end :
  let now := round64 (768 # 24000) in
  ∃ a b,
    scheduled_by initial [Fragment now (1 # 2); Fragment now (1 # 2)]
      = [a; b] ∧
    (start_time a + length_s a - start_time b == 3 # 2 ^ 56)%Q ∧
    ¬ non_overlapping
        (scheduled_by initial [Fragment now (1 # 2); Fragment now (1 # 2)]).
Proof.
  intros now. eexists _, _. split; [reflexivity |]. split.
  - subst now. vm_compute. reflexivity.
  - intros H.
    specialize (H 0%nat _ _ eq_refl eq_refl).
    subst now. vm_compute in H. apply H. reflexivity.
Qed.

(** C2, amended.  In a run of fragments (and completion callbacks) with
    no interruption, where every fragment arrives at a time [now] that is
    a non-negative double and has a non-negative duration, every source
    starts no earlier than the cursor left by the source before it, which
    is the double nearest to start[i] + duration[i].  Against the exact
    sum, start[i+1] >= start[i] + duration[i] - u/2, where u is the
    spacing of the doubles at that sum. *)
Theorem starts_follow_rounded_cursor
    (p : playback) (es : list event) (i : nat) (a b : scheduled) :
  Forall timed es →
  scheduled_by p es !! i = Some a →
  scheduled_by p es !! S i = Some b →
  (add (start_time a) (length_s a) <= start_time b)%Q ∧
  (start_time a + length_s a - ulp (start_time a + length_s a) / 2
   <= start_time b)%Q.
Proof.
  intros Hes Ha Hb.
  destruct (rounded_run_invariant p es Hes) as (Hchain & _ & Hpos).
  pose proof (Hchain i a b Ha Hb) as Hab.
  split; [exact Hab |].
  rewrite Forall_lookup in Hpos. destruct (Hpos i a Ha) as [Hstart Hlen].
  pose proof (add_error_below (start_time a) (length_s a)) as Herr.
  lra.
Qed.

Lemma starts_follow_rounded_cursor_witness :
  let now := round64 (768 # 24000) in
  let a := mkScheduled 0 (add now min_lead) (1 # 2) in
  let b := mkScheduled 1 (add (add now min_lead) (1 # 2)) (1 # 4) in
  (add (start_time a) (length_s a) <= start_time b)%Q ∧
  (start_time a + length_s a - ulp (start_time a + length_s a) / 2
   <= start_time b)%Q.
Proof.
  intros now a b.
  apply (starts_follow_rounded_cursor initial
           [Fragment now (1 # 2); Ended 0; Fragment now (1 # 4)] 0 a b).
  - subst now. repeat constructor; vm_compute; congruence.
  - reflexivity.
  - reflexivity.
Defined.

(** X10.  Two fragments in a row, with the completion callbacks of any
    sources in between.  The first leaves the cursor at the double
    nearest to its start plus its duration.  If the second arrives no
    later than that cursor, it starts exactly there; if it arrives after
    it, it starts at the double nearest to its arrival plus 0.05. *)
Theorem consecutive_fragments
    (p : playback) (sources : list nat) (now1 dur1 now2 dur2 : Q) :
  ∃ a b,
    scheduled_by p
      ([Fragment now1 dur1] ++ (Ended <$> sources) ++ [Fragment now2 dur2])
      = [a; b] ∧
    length_s a = dur1 ∧
    ((now2 <= add (start_time a) dur1)%Q →
       start_time b = add (start_time a) dur1) ∧
    ((add (start_time a) dur1 < now2)%Q →
       start_time b = add now2 min_lead).
Proof.
  rewrite app_assoc, rounded_scheduled_by_snoc, rounded_scheduled_by_one.
  assert (run p ([Fragment now1 dur1] ++ (Ended <$> sources)) =
          run (enqueue now1 dur1 p) (Ended <$> sources)) as Hrun
    by reflexivity.
  destruct (rounded_run_ended (enqueue now1 dur1 p) sources)
    as (Hc & Hs & Hn).
  assert (scheduled_by p ([Fragment now1 dur1] ++ (Ended <$> sources)) =
          scheduled_by p [Fragment now1 dur1]) as ->.
  { unfold scheduled_by. rewrite Hrun, Hs. reflexivity. }
  rewrite rounded_scheduled_by_one, Hrun, Hc, Hn. simpl.
  eexists _, _. split; [reflexivity |]. simpl.
  split; [reflexivity |].
  match goal with
  | |- context [Qltb ?c now2] => case_Qltb c now2
  end; split; intros; reflexivity || lra.
Qed.

End RoundedSchedulerFacts.
